(** * PageRank core of cs50ai: transition model, sampling and iteration

    A shallow embedding of [src/pagerank/pagerank.py].

    - Python floats are modelled as exact rationals ([Q]); a division
      raises [ZeroDivisionError] on a zero divisor, as in Python.  What
      is proved of the ranks is proved of this exact arithmetic.  The
      loop of [iterate_pagerank] is given a second time in binary64
      (module [Binary64]), to show where rounding makes it part from the
      exact one.
    - A [dict] is an association list in insertion order with distinct
      keys; a [set] of pages is a list without duplicates.
    - Exceptions are the [Raise] results of the [outcome] monad.
    - The [while] loop of [iterate_pagerank] runs on a budget of passes;
      [None] means that the budget was used up.
    - The process-wide random generator is an explicit stream of raw
      draws.
    - The file system that [crawl] reads is given by its answers. *)

From Stdlib Require Import List String ZArith QArith Qabs Qround Lia Lqa Bool
  Permutation Floats Uint63.
Import ListNotations.

Open Scope Q_scope.

(** ** Exceptions and the error monad *)

Inductive exn : Type :=
| KeyError
| ZeroDivisionError
| IndexError
| ValueError.

Inductive outcome (A : Type) : Type :=
| Ok (a : A)
| Raise (e : exn).

Arguments Ok {A} a.
Arguments Raise {A} e.

Definition bind {A B : Type} (c : outcome A) (k : A -> outcome B) : outcome B :=
  match c with
  | Ok a => k a
  | Raise e => Raise e
  end.

Notation "x <- c ;; k" := (bind c (fun x => k))
  (at level 61, c at next level, right associativity).

(** [for x in l: s = body(s, x)] *)
Fixpoint for_each {A S : Type} (l : list A) (body : S -> A -> outcome S)
  (s : S) : outcome S :=
  match l with
  | [] => Ok s
  | a :: l' => s' <- body s a ;; for_each l' body s'
  end.

(** ** Numbers *)

Definition Q_of_nat (n : nat) : Q := inject_Z (Z.of_nat n).

(** [len(x)] used as a number *)
Definition len {A : Type} (l : list A) : Q := Q_of_nat (List.length l).

(** [a / b] *)
Definition py_div (a b : Q) : outcome Q :=
  if Qeq_bool b 0 then Raise ZeroDivisionError else Ok (a / b).

(** [a < b] *)
Definition Qltb (a b : Q) : bool := negb (Qle_bool b a).

(** [sum(l)]: a left fold from 0 *)
Definition py_sum (l : list Q) : Q := fold_left Qplus l 0.

(** The same sum as a right fold, for the proofs. *)
Definition Qsum (l : list Q) : Q := fold_right Qplus 0 l.

(** ** Dictionaries and sets *)

Definition Page : Type := string.

Section Dict.
Context {V : Type}.

Definition dict : Type := list (Page * V).

Definition dict_keys (d : dict) : list Page := map fst d.
Definition dict_values (d : dict) : list V := map snd d.

(** [d[k]] *)
Fixpoint dict_get (d : dict) (k : Page) : outcome V :=
  match d with
  | [] => Raise KeyError
  | (k', v) :: d' => if String.eqb k k' then Ok v else dict_get d' k
  end.

(** [d[k] = v]: an existing key keeps its place, a new one goes last *)
Fixpoint dict_set (d : dict) (k : Page) (v : V) : dict :=
  match d with
  | [] => [(k, v)]
  | (k', v') :: d' =>
      if String.eqb k k' then (k', v) :: d' else (k', v') :: dict_set d' k v
  end.
End Dict.

Arguments dict V : clear implicits.

(** [p in s] *)
Definition set_mem (p : Page) (s : list Page) : bool :=
  existsb (String.eqb p) s.

(** The corpus: each page with the set of pages it links to. *)
Definition graph : Type := dict (list Page).

(** A rank or transition distribution. *)
Definition dist : Type := dict Q.

(** ** transition_model *)

Definition transition_model (corpus : graph) (page : Page)
  (damping_factor : Q) : outcome dist :=
  let num_pages := len corpus in
  links <- dict_get corpus page ;;
  let num_links := len links in
  if (List.length links =? 0)%nat then
    for_each (dict_keys corpus)
      (fun pr_dict pg =>
         v <- py_div 1 (len corpus) ;;
         Ok (dict_set pr_dict pg v)) []
  else
    for_each (dict_keys corpus)
      (fun pr_dict pg =>
         prob <- py_div (1 - damping_factor) num_pages ;;
         prob <- (if set_mem pg links
                  then x <- py_div damping_factor num_links ;; Ok (prob + x)
                  else Ok prob) ;;
         Ok (dict_set pr_dict pg prob)) [].

(** ** The random generator

    [random.choice] and [random.choices] draw from the process-wide
    generator.  The generator is modelled by the stream of its raw
    53-bit outputs; [sample_pagerank] consumes one draw for each pass of
    its loop, so the draw of pass [i] is [gen i]. *)

Definition random_source : Type := nat -> N.

(** [_randbelow(n)]: an index below [n] *)
Definition randbelow (raw : N) (n : nat) : nat :=
  N.to_nat (raw mod N.of_nat n).

(** [random()]: a number in [0, 1) *)
Definition random_unit (raw : N) : Q :=
  inject_Z (Z.of_N (raw mod 2 ^ 53)) / inject_Z (2 ^ 53).

(** [random.choice(seq)] *)
Definition random_choice {A : Type} (raw : N) (seq : list A) : outcome A :=
  match seq with
  | [] => Raise IndexError
  | _ :: _ =>
      match nth_error seq (randbelow raw (List.length seq)) with
      | Some a => Ok a
      | None => Raise IndexError
      end
  end.

(** [itertools.accumulate(weights)]: the running sums *)
Fixpoint accumulate_from (acc : Q) (l : list Q) : list Q :=
  match l with
  | [] => []
  | w :: l' => (acc + w) :: accumulate_from (acc + w) l'
  end.

Definition accumulate (l : list Q) : list Q :=
  match l with
  | [] => []
  | w :: l' => w :: accumulate_from w l'
  end.

(** [bisect.bisect(a, x, lo, hi)]: binary search on [a[lo:hi]]; the
    interval shrinks at each step, so [hi - lo] steps are enough. *)
Fixpoint bisect_loop (steps : nat) (a : list Q) (x : Q) (lo hi : nat) : nat :=
  match steps with
  | O => lo
  | S steps' =>
      if (lo <? hi)%nat then
        let mid := ((lo + hi) / 2)%nat in
        if Qltb x (nth mid a 0) then bisect_loop steps' a x lo mid
        else bisect_loop steps' a x (mid + 1)%nat hi
      else lo
  end.

Definition bisect (a : list Q) (x : Q) (lo hi : nat) : nat :=
  bisect_loop (hi - lo) a x lo hi.

(** [random.choices(population, weights=weights, k=1)[0]] *)
Definition random_choices {A : Type} (raw : N) (population : list A)
  (weights : list Q) : outcome A :=
  let n := List.length population in
  let cum_weights := accumulate weights in
  if negb (List.length cum_weights =? n)%nat then Raise ValueError
  else
    match cum_weights with
    | [] => Raise IndexError
    | _ :: _ =>
        let total := last cum_weights 0 in
        if Qle_bool total 0 then Raise ValueError
        else
          let hi := (n - 1)%nat in
          match nth_error population
                  (bisect cum_weights (random_unit raw * total) 0 hi) with
          | Some a => Ok a
          | None => Raise IndexError
          end
    end.

(** ** sample_pagerank *)

(** [for page in probabilities: probabilities[page] = probabilities[page] / x] *)
Definition divide_all (probabilities : dist) (x : Q) : outcome dist :=
  for_each (dict_keys probabilities)
    (fun probabilities page =>
       old <- dict_get probabilities page ;;
       v <- py_div old x ;;
       Ok (dict_set probabilities page v)) probabilities.

(** [for page in new_probabilities:
       probabilities[page] += new_probabilities[page]] *)
Definition add_all (probabilities new_probabilities : dist) : outcome dist :=
  for_each (dict_keys new_probabilities)
    (fun probabilities page =>
       old <- dict_get probabilities page ;;
       v <- dict_get new_probabilities page ;;
       Ok (dict_set probabilities page (old + v))) probabilities.

(** The [while i < n] loop; [count] is the number of passes left. *)
Fixpoint sample_loop (gen : random_source) (corpus : graph)
  (damping_factor : Q) (count i : nat) (probabilities : dist) : outcome dist :=
  match count with
  | O => Ok probabilities
  | S count' =>
      sample_page <-
        (if (i =? 0)%nat
         then random_choice (gen i) (dict_keys probabilities)
         else random_choices (gen i) (dict_keys probabilities)
                (dict_values probabilities)) ;;
      new_probabilities <- transition_model corpus sample_page damping_factor ;;
      probabilities <- add_all probabilities new_probabilities ;;
      sample_loop gen corpus damping_factor count' (S i) probabilities
  end.

Definition sample_pagerank (gen : random_source) (corpus : graph)
  (damping_factor : Q) (n : Z) : outcome dist :=
  let probabilities :=
    fold_left (fun probabilities page => dict_set probabilities page 0)
      (dict_keys corpus) [] in
  probabilities <-
    sample_loop gen corpus damping_factor (Z.to_nat n) 0 probabilities ;;
  probabilities <- divide_all probabilities (inject_Z n) ;;
  let total := py_sum (dict_values probabilities) in
  divide_all probabilities total.

(** ** iterate_pagerank *)

(** [not s] for a set *)
Definition is_empty {A : Type} (s : list A) : bool :=
  match s with
  | [] => true
  | _ :: _ => false
  end.

(** [l.remove(x)]: drops the first occurrence *)
Fixpoint list_remove (l : list Page) (x : Page) : outcome (list Page) :=
  match l with
  | [] => Raise ValueError
  | y :: l' =>
      if String.eqb x y then Ok l'
      else r <- list_remove l' x ;; Ok (y :: r)
  end.

(** The inner [for extra in corpus] loop computing [prob_total]. *)
Definition prob_total (corpus : graph) (probabilities : dist) (page : Page)
  : outcome Q :=
  for_each (dict_keys corpus)
    (fun prob_total extra =>
       links <- dict_get corpus extra ;;
       prob_total <-
         (if is_empty links
          then r <- dict_get probabilities extra ;;
               v <- py_div r (len corpus) ;;
               Ok (prob_total + v)
          else Ok prob_total) ;;
       if set_mem page links
       then r <- dict_get probabilities extra ;;
            v <- py_div r (len links) ;;
            Ok (prob_total + v)
       else Ok prob_total) 0.

(** The convergence threshold [0.001]. *)
Definition threshold : Q := 1 # 1000.

(** [for page in candidates_list: ...] with the list changed under the
    iterator: the iterator holds an index [idx] into the live list and
    stops when the index reaches its current length.  One pass reads at
    most as many entries as the list had at its start, which is what
    [steps] starts from. *)
Fixpoint for_candidates (steps : nat) (corpus : graph) (damping_factor : Q)
  (idx : nat) (candidates_list : list Page) (probabilities : dist)
  : outcome (list Page * dist) :=
  match steps with
  | O => Ok (candidates_list, probabilities)
  | S steps' =>
      match nth_error candidates_list idx with
      | None => Ok (candidates_list, probabilities)
      | Some page =>
          total <- prob_total corpus probabilities page ;;
          base <- py_div (1 - damping_factor) (len corpus) ;;
          let new_pr := base + damping_factor * total in
          old <- dict_get probabilities page ;;
          candidates_list <-
            (if Qltb (Qabs (new_pr - old)) threshold
             then list_remove candidates_list page
             else Ok candidates_list) ;;
          for_candidates steps' corpus damping_factor (S idx) candidates_list
            (dict_set probabilities page new_pr)
      end
  end.

(** One turn of the [while] loop: a whole [for] statement. *)
Definition pass (corpus : graph) (damping_factor : Q)
  (candidates_list : list Page) (probabilities : dist)
  : outcome (list Page * dist) :=
  for_candidates (List.length candidates_list) corpus damping_factor 0
    candidates_list probabilities.

(** [while len(candidates_list) > 0]; [None] when [fuel] passes were not
    enough. *)
Fixpoint while_candidates (fuel : nat) (corpus : graph) (damping_factor : Q)
  (candidates_list : list Page) (probabilities : dist)
  : option (outcome dist) :=
  match candidates_list with
  | [] => Some (Ok probabilities)
  | _ :: _ =>
      match fuel with
      | O => None
      | S fuel' =>
          match pass corpus damping_factor candidates_list probabilities with
          | Raise e => Some (Raise e)
          | Ok (candidates_list', probabilities') =>
              while_candidates fuel' corpus damping_factor candidates_list'
                probabilities'
          end
      end
  end.

Definition iterate_pagerank (fuel : nat) (corpus : graph)
  (damping_factor : Q) : option (outcome dist) :=
  let pages_num := len corpus in
  match py_div 1 pages_num with
  | Raise e => Some (Raise e)
  | Ok initial_prob =>
      let probabilities :=
        fold_left (fun probabilities page =>
                     dict_set probabilities page initial_prob)
          (dict_keys corpus) [] in
      let candidates_list := dict_keys corpus in
      match while_candidates fuel corpus damping_factor candidates_list
              probabilities with
      | None => None
      | Some (Raise e) => Some (Raise e)
      | Some (Ok probabilities) =>
          let total := py_sum (dict_values probabilities) in
          Some (divide_all probabilities total)
      end
  end.

(** ** Invariants of the data model *)

(** What the representation owes to Python: the keys of a [dict] are
    distinct and so are the members of a [set]. *)
Definition well_formed (corpus : graph) : Prop :=
  NoDup (dict_keys corpus) /\ Forall (fun e => NoDup (snd e)) corpus.

(** Every edge target is a key of the mapping. *)
Definition closed (corpus : graph) : Prop :=
  Forall (fun e => incl (snd e) (dict_keys corpus)) corpus.

(** No page links to itself. *)
Definition no_self_loops (corpus : graph) : Prop :=
  Forall (fun e => ~ In (fst e) (snd e)) corpus.

Definition valid_graph (corpus : graph) : Prop :=
  well_formed corpus /\ closed corpus /\ no_self_loops corpus.

(** The transition probabilities as the specification words them. *)
Definition spec_transition (corpus : graph) (links : list Page)
  (dampingFactor : Q) (p : Page) : Q :=
  if is_empty links then 1 / len corpus
  else if set_mem p links
       then (1 - dampingFactor) / len corpus + dampingFactor / len links
       else (1 - dampingFactor) / len corpus.

(** ** The recurrence of the iterative estimator *)

(** [x[k]] read as a number, for the proofs ([0] off the keys) *)
Definition rank (x : dist) (k : Page) : Q :=
  match dict_get x k with
  | Ok v => v
  | Raise _ => 0
  end.

(** The share of its rank that a page with target set [links] hands to
    page [p]: [1/N] to every page when it is dangling, [1/L] to each of
    its targets otherwise. *)
Definition share (corpus : graph) (links : list Page) (p : Page) : Q :=
  (if is_empty links then 1 / len corpus else 0) +
  (if set_mem p links then 1 / len links else 0).

Definition inflow (corpus : graph) (x : dist) (p : Page) : Q :=
  Qsum (map (fun e => share corpus (snd e) p * rank x (fst e)) corpus).

(** [newRank(p)] of the specification, over the ranks [x]. *)
Definition newRank (corpus : graph) (d : Q) (x : dist) (p : Page) : Q :=
  (1 - d) / len corpus + d * inflow corpus x p.

(** How far the ranks of the pages in [l] are from their recomputed
    values. *)
Definition residual (corpus : graph) (d : Q) (x : dist) (l : list Page) : Q :=
  Qsum (map (fun q => Qabs (newRank corpus d x q - rank x q)) l).

(** The quantity that every turn of the [for] loop lowers by at least
    [(1 - d) * threshold]. *)
Definition potential (corpus : graph) (d : Q) (l : list Page) (x : dist) : Q :=
  residual corpus d x l + (1 - d) * threshold * len l.

(** The invariant of the loop state: the candidates are distinct pages of
    the corpus, and the ranks cover the corpus and are strictly
    positive. *)
Definition state_ok (corpus : graph) (candidates_list : list Page)
  (probabilities : dist) : Prop :=
  NoDup candidates_list /\
  incl candidates_list (dict_keys corpus) /\
  dict_keys probabilities = dict_keys corpus /\
  forall k, In k (dict_keys corpus) -> 0 < rank probabilities k.

(** What every turn of the [for] loop takes off the potential. *)
Definition progress (d : Q) : Q := (1 - d) * threshold.

(** What the loop of [sample_pagerank] draws at pass [i]. *)
Definition draw (gen : random_source) (i : nat) (acc : dist) : outcome Page :=
  if (i =? 0)%nat then random_choice (gen i) (dict_keys acc)
  else random_choices (gen i) (dict_keys acc) (dict_values acc).

(** After [i] passes the accumulator covers the corpus and holds a total
    of [i]. *)
Definition accumulator_ok (corpus : graph) (i : nat) (acc : dist) : Prop :=
  dict_keys acc = dict_keys corpus /\ Qsum (dict_values acc) == Q_of_nat i.

(** ** The sampling estimator as the specification words it *)

(** Step 1: an accumulator mapping every node to 0. *)
Definition spec_accumulator (corpus : graph) : dist :=
  map (fun k => (k, 0)) (dict_keys corpus).

(** Adding an entire distribution into the accumulator. *)
Definition spec_add (accumulator distribution : dist) : dist :=
  map (fun e => (fst e, snd e + rank distribution (fst e))) accumulator.

(** Dividing every entry by [c]. *)
Definition spec_scale (x : dist) (c : Q) : dist :=
  map (fun e => (fst e, snd e / c)) x.

(** Step 3, [count] more times: the distribution of the tracked node goes
    into the accumulator, and the next tracked node is drawn with the
    accumulator's current values as weights. *)
Fixpoint spec_walk (gen : random_source) (corpus : graph) (dampingFactor : Q)
  (count i : nat) (tracked : Page) (accumulator : dist) : outcome dist :=
  match count with
  | O => Ok accumulator
  | S count' =>
      distribution <- transition_model corpus tracked dampingFactor ;;
      let accumulator := spec_add accumulator distribution in
      next <- random_choices (gen (S i)) (dict_keys accumulator)
                (dict_values accumulator) ;;
      spec_walk gen corpus dampingFactor count' (S i) next accumulator
  end.

(** Steps 1 to 4. *)
Definition spec_sample (gen : random_source) (corpus : graph)
  (dampingFactor : Q) (sampleCount : Z) : outcome dist :=
  first <- random_choice (gen O) (dict_keys corpus) ;;
  accumulator <-
    spec_walk gen corpus dampingFactor (Z.to_nat sampleCount) 0 first
      (spec_accumulator corpus) ;;
  let accumulator := spec_scale accumulator (inject_Z sampleCount) in
  Ok (spec_scale accumulator (py_sum (dict_values accumulator))).

(** ** One pass as the specification words it *)

(** Every page of [todo], the pages active when the pass starts, is
    recomputed in turn from the current ranks; a page whose rank moved by
    less than the threshold leaves the active list. *)
Fixpoint spec_pass (corpus : graph) (d : Q) (todo active : list Page)
  (x : dist) : list Page * dist :=
  match todo with
  | [] => (active, x)
  | p :: todo' =>
      let v := newRank corpus d x p in
      let active' :=
        if Qltb (Qabs (v - rank x p)) threshold
        then remove string_dec p active
        else active in
      spec_pass corpus d todo' active' (dict_set x p v)
  end.

(** ** Sample corpora *)

Open Scope string_scope.

(** A -> B -> C -> A *)
Definition cycle3 : graph := [("A", ["B"]); ("B", ["C"]); ("C", ["A"])].

(** A <-> B *)
Definition two_cycle : graph := [("A", ["B"]); ("B", ["A"])].

(** A <-> B, C -> B *)
Definition skewed : graph := [("A", ["B"]); ("B", ["A"]); ("C", ["B"])].

(** A -> B, B <-> C *)
Definition chain : graph := [("A", ["B"]); ("B", ["C"]); ("C", ["B"])].

(** A -> D, D dangling *)
Definition dead_end : graph := [("A", ["D"]); ("D", [])].

Close Scope string_scope.

(** ** Checking the invariants *)

Fixpoint distinct (l : list Page) : bool :=
  match l with
  | [] => true
  | a :: l' => negb (set_mem a l') && distinct l'
  end.

Definition valid_graphb (corpus : graph) : bool :=
  distinct (dict_keys corpus) &&
  forallb (fun e =>
             distinct (snd e) &&
             forallb (fun t => set_mem t (dict_keys corpus)) (snd e) &&
             negb (set_mem (fst e) (snd e))) corpus.

(** ** crawl

    The directory is given by what the operating system answers: the
    listing of [os.listdir], or the exception it raises, and for each
    listed name the text that [open(...).read()] returns, or the
    exception that opening or reading raises (a directory, a file that
    may not be read, bytes that do not decode).  [findall contents]
    stands for the call of [re.findall] that extracts the [href] targets
    of the anchors in [contents].  The members of a set are kept in a
    list without duplicates; the code only asks a set for membership and
    for its size. *)

Open Scope string_scope.

Inductive os_exn : Type :=
| FileNotFoundError
| NotADirectoryError
| IsADirectoryError
| PermissionError
| UnicodeDecodeError.

(** What a call to the operating system gives. *)
Inductive answer (A : Type) : Type :=
| Answer (a : A)
| Refuse (e : os_exn).

Arguments Answer {A} a.
Arguments Refuse {A} e.

(** What [crawl] gives: the corpus, or the exception that ends it. *)
Inductive crawled : Type :=
| Pages (corpus : graph)
| OsRaise (e : os_exn)
| PyRaise (e : exn).

(** [s.endswith(suffix)] *)
Definition endswith (s suffix : string) : bool :=
  (String.length suffix <=? String.length s)%nat &&
  String.eqb
    (substring (String.length s - String.length suffix)
       (String.length suffix) s)
    suffix.

(** The first loop of [crawl]: it ends at the first page that cannot be
    opened or read. *)
Fixpoint scan (findall : string -> list Page)
  (files : list (string * answer string)) (pages : graph) : answer graph :=
  match files with
  | [] => Answer pages
  | (filename, opened) :: files' =>
      if negb (endswith filename ".html") then scan findall files' pages
      else
        match opened with
        | Refuse e => Refuse e
        | Answer contents =>
            let links := findall contents in
            scan findall files'
              (dict_set pages filename
                 (remove string_dec filename (nodup string_dec links)))
        end
  end.

Definition crawl (findall : string -> list Page)
  (directory : answer (list (string * answer string))) : crawled :=
  match directory with
  | Refuse e => OsRaise e
  | Answer files =>
      match scan findall files [] with
      | Refuse e => OsRaise e
      | Answer pages =>
          match
            for_each (dict_keys pages)
              (fun pages filename =>
                 links <- dict_get pages filename ;;
                 Ok (dict_set pages filename
                       (filter (fun link => set_mem link (dict_keys pages))
                          links)))
              pages
          with
          | Ok pages => Pages pages
          | Raise e => PyRaise e
          end
      end
  end.

(** The first loop on files that have all been read, one file at a
    time. *)
Definition scan_step (findall : string -> list Page) (pages : graph)
  (file : string * string) : graph :=
  if negb (endswith (fst file) ".html") then pages
  else dict_set pages (fst file)
         (remove string_dec (fst file) (nodup string_dec (findall (snd file)))).

(** What the first loop of [crawl] keeps of a file. *)
Definition scanned (findall : string -> list Page) (file : string * string)
  : Page * list Page :=
  (fst file, remove string_dec (fst file) (nodup string_dec (findall (snd file)))).

(** The names of the listing that [crawl] takes for pages. *)
Definition is_page (file : string * string) : bool :=
  endswith (fst file) ".html".

(** The text of the files; the empty text where there is none. *)
Definition texts (files : list (string * answer string))
  : list (string * string) :=
  map (fun f => (fst f, match snd f with
                        | Answer contents => contents
                        | Refuse _ => ""
                        end)) files.

(** Every listed page could be read. *)
Definition readable (files : list (string * answer string)) : Prop :=
  forall name e, In (name, Refuse e) files -> endswith name ".html" = false.

(** A directory for the examples: two pages that link to each other, to
    themselves, to a missing page and to a file that is no page, beside a
    subdirectory. *)
Definition site : list (string * answer string) :=
  [("1.html", Answer "a"); ("notes.txt", Answer "b");
   ("img", Refuse IsADirectoryError); ("2.html", Answer "c")].

Definition site_findall (contents : string) : list Page :=
  if String.eqb contents "a" then ["2.html"; "1.html"; "2.html"; "x.html"]
  else if String.eqb contents "c" then ["1.html"; "notes.txt"]
  else [].


Close Scope string_scope.


(** ** Corpora on which the uniform ranks are stationary *)

(** Every page receives shares that add up to 1, as in a cycle, in a
    corpus where every page links to every other one, or where no page
    links anywhere. *)
Definition balanced (corpus : graph) : Prop :=
  forall p, In p (dict_keys corpus) ->
            Qsum (map (fun e => share corpus (snd e) p) corpus) == 1.

(** The ranks cover the corpus and all amount to [1/N]. *)
Definition uniform_ranks (corpus : graph) (x : dist) : Prop :=
  dict_keys x = dict_keys corpus /\
  forall k, In k (dict_keys corpus) -> rank x k == 1 / len corpus.

(** ** The same corpus with the members of its sets in another order *)

Definition same_links (corpus corpus' : graph) : Prop :=
  Forall2 (fun e e' => fst e = fst e' /\ Permutation (snd e) (snd e'))
    corpus corpus'.

(** ** iterate_pagerank in binary64

    The loop of [iterate_pagerank] once more, with Python's [float]
    taken for what it is: IEEE 754 binary64, every operation rounded to
    nearest.  The dictionaries, the candidate list and the iterator are
    those of the exact model above; only the numbers differ. *)

Module Binary64.

(** [len(x)] as a float divisor *)
Definition len {A : Type} (l : list A) : float :=
  PrimFloat.of_uint63 (Uint63.of_Z (Z.of_nat (List.length l))).

(** [a / b] *)
Definition py_div (a b : float) : outcome float :=
  if PrimFloat.eqb b 0%float then Raise ZeroDivisionError
  else Ok (PrimFloat.div a b).

(** The convergence threshold [0.001], rounded to binary64. *)
Definition threshold : float := 0x1.0624dd2f1a9fcp-10%float.

Definition prob_total (corpus : graph) (probabilities : dict float)
  (page : Page) : outcome float :=
  for_each (dict_keys corpus)
    (fun prob_total extra =>
       links <- dict_get corpus extra ;;
       prob_total <-
         (if is_empty links
          then r <- dict_get probabilities extra ;;
               v <- py_div r (len corpus) ;;
               Ok (PrimFloat.add prob_total v)
          else Ok prob_total) ;;
       if set_mem page links
       then r <- dict_get probabilities extra ;;
            v <- py_div r (len links) ;;
            Ok (PrimFloat.add prob_total v)
       else Ok prob_total) 0%float.

Fixpoint for_candidates (steps : nat) (corpus : graph)
  (damping_factor : float) (idx : nat) (candidates_list : list Page)
  (probabilities : dict float) : outcome (list Page * dict float) :=
  match steps with
  | O => Ok (candidates_list, probabilities)
  | S steps' =>
      match nth_error candidates_list idx with
      | None => Ok (candidates_list, probabilities)
      | Some page =>
          total <- prob_total corpus probabilities page ;;
          base <- py_div (PrimFloat.sub 1%float damping_factor) (len corpus) ;;
          let new_pr :=
            PrimFloat.add base (PrimFloat.mul damping_factor total) in
          old <- dict_get probabilities page ;;
          candidates_list <-
            (if PrimFloat.ltb (PrimFloat.abs (PrimFloat.sub new_pr old))
                  threshold
             then list_remove candidates_list page
             else Ok candidates_list) ;;
          for_candidates steps' corpus damping_factor (S idx) candidates_list
            (dict_set probabilities page new_pr)
      end
  end.

Definition pass (corpus : graph) (damping_factor : float)
  (candidates_list : list Page) (probabilities : dict float)
  : outcome (list Page * dict float) :=
  for_candidates (List.length candidates_list) corpus damping_factor 0
    candidates_list probabilities.

Fixpoint while_candidates (fuel : nat) (corpus : graph)
  (damping_factor : float) (candidates_list : list Page)
  (probabilities : dict float) : option (outcome (dict float)) :=
  match candidates_list with
  | [] => Some (Ok probabilities)
  | _ :: _ =>
      match fuel with
      | O => None
      | S fuel' =>
          match pass corpus damping_factor candidates_list probabilities with
          | Raise e => Some (Raise e)
          | Ok (candidates_list', probabilities') =>
              while_candidates fuel' corpus damping_factor candidates_list'
                probabilities'
          end
      end
  end.


End Binary64.

(** * Properties *)

(** ** The error monad and the numbers *)

Lemma bind_Ok {A B : Type} (c : outcome A) (k : A -> outcome B) (b : B) :
  bind c k = Ok b -> exists a, c = Ok a /\ k a = Ok b.
Proof.
  destruct c as [a|e]; simpl; intros H; [eauto | discriminate].
Qed.

Lemma Q_of_nat_S_pos (n : nat) : 0 < Q_of_nat (S n).
Proof.
  unfold Q_of_nat, Qlt; simpl. lia.
Qed.

Lemma Q_of_nat_nonneg (n : nat) : 0 <= Q_of_nat n.
Proof.
  unfold Q_of_nat, Qle; simpl. lia.
Qed.

Lemma Q_of_nat_succ (n : nat) : Q_of_nat (S n) == Q_of_nat n + 1.
Proof.
  unfold Q_of_nat. rewrite Nat2Z.inj_succ. unfold Z.succ.
  rewrite inject_Z_plus. reflexivity.
Qed.

Lemma Q_of_nat_le (n m : nat) : (n <= m)%nat -> Q_of_nat n <= Q_of_nat m.
Proof.
  intros H. unfold Q_of_nat. rewrite <- Zle_Qle. lia.
Qed.

Lemma len_pos {A : Type} (l : list A) : l <> [] -> 0 < len l.
Proof.
  destruct l; [congruence | intros _; apply Q_of_nat_S_pos].
Qed.

Lemma py_div_Ok (a b : Q) : ~ b == 0 -> py_div a b = Ok (a / b).
Proof.
  intros H. unfold py_div.
  destruct (Qeq_bool b 0) eqn:E; [|reflexivity].
  apply Qeq_bool_eq in E. contradiction.
Qed.

Lemma py_div_zero (a b : Q) : b == 0 -> py_div a b = Raise ZeroDivisionError.
Proof.
  intros H. unfold py_div. now rewrite (Qeq_eq_bool _ _ H).
Qed.

Lemma py_div_len {A : Type} (a : Q) (l : list A) :
  l <> [] -> py_div a (len l) = Ok (a / len l).
Proof.
  intros H. apply py_div_Ok. pose proof (len_pos l H). lra.
Qed.

Lemma Qltb_lt (a b : Q) : Qltb a b = true <-> a < b.
Proof.
  unfold Qltb. rewrite negb_true_iff.
  destruct (Qle_bool b a) eqn:E.
  - apply Qle_bool_iff in E. split; [discriminate | lra].
  - split; [intros _ | reflexivity].
    apply Qnot_le_lt. intros H. apply Qle_bool_iff in H. congruence.
Qed.

Lemma Qltb_ge (a b : Q) : Qltb a b = false <-> b <= a.
Proof.
  unfold Qltb. rewrite negb_false_iff. apply Qle_bool_iff.
Qed.

Lemma fold_left_Qplus (l : list Q) (a : Q) :
  fold_left Qplus l a == a + Qsum l.
Proof.
  revert a; induction l as [|x l IH]; intros a; simpl.
  - lra.
  - rewrite IH. lra.
Qed.

Lemma py_sum_Qsum (l : list Q) : py_sum l == Qsum l.
Proof.
  unfold py_sum. rewrite fold_left_Qplus. lra.
Qed.

Lemma Qsum_app (l1 l2 : list Q) : Qsum (l1 ++ l2) == Qsum l1 + Qsum l2.
Proof.
  induction l1 as [|x l1 IH]; simpl; [lra | rewrite IH; lra].
Qed.

Lemma Qsum_pos (l : list Q) :
  l <> [] -> Forall (fun x => 0 < x) l -> 0 < Qsum l.
Proof.
  intros Hne H. induction H as [|x l Hx Hl IH]; [congruence|].
  simpl. destruct l as [|y l].
  - simpl. lra.
  - assert (0 < Qsum (y :: l)) by (apply IH; congruence). lra.
Qed.

Lemma Qsum_map_div {A : Type} (f : A -> Q) (c : Q) (l : list A) :
  Qsum (map (fun a => f a / c) l) == Qsum (map f l) / c.
Proof.
  induction l as [|a l IH]; simpl.
  - unfold Qdiv. lra.
  - rewrite IH. unfold Qdiv. lra.
Qed.

(** ** Dictionaries *)

Section DictFacts.
Context {V : Type}.
Implicit Types (d : dict V) (k : Page) (v : V).

Lemma dict_get_In d k v : dict_get d k = Ok v -> In (k, v) d.
Proof.
  induction d as [|[k' v'] d IH]; simpl; [discriminate|].
  destruct (String.eqb_spec k k') as [->|Hne].
  - intros [= ->]. now left.
  - intros H. right. auto.
Qed.

Lemma dict_get_key d k v : dict_get d k = Ok v -> In k (dict_keys d).
Proof.
  intros H. apply dict_get_In in H.
  apply (in_map fst) in H. exact H.
Qed.

Lemma dict_get_missing d k :
  ~ In k (dict_keys d) -> dict_get d k = Raise KeyError.
Proof.
  induction d as [|[k' v'] d IH]; simpl; [reflexivity|].
  intros H. destruct (String.eqb_spec k k') as [->|Hne]; [tauto|].
  apply IH. tauto.
Qed.

Lemma dict_get_present d k :
  In k (dict_keys d) -> exists v, dict_get d k = Ok v.
Proof.
  induction d as [|[k' v'] d IH]; simpl; [tauto|].
  intros H. destruct (String.eqb_spec k k') as [->|Hne]; [eauto|].
  apply IH. destruct H; congruence.
Qed.

Lemma dict_get_entry d k v :
  NoDup (dict_keys d) -> In (k, v) d -> dict_get d k = Ok v.
Proof.
  induction d as [|[k' v'] d IH]; simpl; [tauto|].
  intros Hnd [[= -> ->]|Hin].
  - now rewrite String.eqb_refl.
  - inversion Hnd as [|? ? Hk' Hnd']; subst.
    destruct (String.eqb_spec k k') as [->|Hne]; [|auto].
    exfalso. apply Hk'. apply (in_map fst) in Hin. exact Hin.
Qed.

Lemma dict_set_keys d k v :
  In k (dict_keys d) -> dict_keys (dict_set d k v) = dict_keys d.
Proof.
  induction d as [|[k' v'] d IH]; simpl; [tauto|].
  intros H. destruct (String.eqb_spec k k') as [->|Hne]; simpl;
    [reflexivity|].
  f_equal. apply IH. destruct H; congruence.
Qed.

Lemma dict_set_new d k v :
  ~ In k (dict_keys d) -> dict_set d k v = d ++ [(k, v)].
Proof.
  induction d as [|[k' v'] d IH]; simpl; [reflexivity|].
  intros H. destruct (String.eqb_spec k k') as [->|Hne]; [tauto|].
  f_equal. apply IH. tauto.
Qed.

Lemma dict_get_set_same d k v :
  In k (dict_keys d) -> dict_get (dict_set d k v) k = Ok v.
Proof.
  induction d as [|[k' v'] d IH]; simpl; [tauto|].
  intros H. destruct (String.eqb_spec k k') as [->|Hne]; simpl.
  - now rewrite String.eqb_refl.
  - destruct (String.eqb_spec k k'); [congruence|].
    apply IH. destruct H; congruence.
Qed.

Lemma dict_get_set_other d k k' v :
  k' <> k -> dict_get (dict_set d k v) k' = dict_get d k'.
Proof.
  intros Hne. induction d as [|[k0 v0] d IH]; simpl.
  - destruct (String.eqb_spec k' k); congruence.
  - destruct (String.eqb_spec k k0) as [->|Hk]; simpl.
    + destruct (String.eqb_spec k' k0); congruence.
    + now rewrite IH.
Qed.

(** A loop that stores [f k] under each key [k] of a list of distinct
    new keys appends the entries in order. *)
Lemma for_each_build (f : Page -> V) (body : dict V -> Page -> outcome (dict V))
  (keys : list Page) :
  (forall acc k, In k keys -> body acc k = Ok (dict_set acc k (f k))) ->
  NoDup keys ->
  forall acc, (forall k, In k keys -> ~ In k (dict_keys acc)) ->
  for_each keys body acc = Ok (acc ++ map (fun k => (k, f k)) keys).
Proof.
  intros Hbody Hnd. induction Hnd as [|k keys Hk Hnd IH]; intros acc Hacc.
  - simpl. now rewrite app_nil_r.
  - simpl. rewrite Hbody by now left. simpl.
    rewrite dict_set_new by (apply Hacc; now left).
    rewrite IH.
    + now rewrite <- app_assoc.
    + intros; apply Hbody; now right.
    + intros k' Hk'. unfold dict_keys. rewrite map_app, in_app_iff. simpl.
      intros [H|[->|[]]]; [|tauto].
      apply (Hacc k'); [now right | exact H].
Qed.
End DictFacts.

Lemma set_mem_In (p : Page) (s : list Page) : set_mem p s = true <-> In p s.
Proof.
  unfold set_mem. rewrite existsb_exists. split.
  - intros [x [Hx E]]. apply String.eqb_eq in E. now subst.
  - intros H. exists p. split; [exact H | apply String.eqb_refl].
Qed.

(** ** transition_model *)

Lemma len_keys {V : Type} (d : dict V) : len (dict_keys d) = len d.
Proof.
  unfold len, dict_keys. now rewrite length_map.
Qed.

Lemma dict_values_map {V : Type} (f : Page -> V) (keys : list Page) :
  dict_values (map (fun k => (k, f k)) keys) = map f keys.
Proof.
  unfold dict_values. rewrite map_map. reflexivity.
Qed.

Lemma dict_keys_map {V : Type} (f : Page -> V) (keys : list Page) :
  dict_keys (map (fun k => (k, f k)) keys) = keys.
Proof.
  unfold dict_keys. rewrite map_map. simpl. apply map_id.
Qed.

Lemma transition_model_eq (corpus : graph) (page : Page) (d : Q)
  (links : list Page) :
  NoDup (dict_keys corpus) ->
  dict_get corpus page = Ok links ->
  transition_model corpus page d =
  Ok (map (fun pg => (pg, spec_transition corpus links d pg))
        (dict_keys corpus)).
Proof.
  intros Hnd Hget. unfold transition_model. rewrite Hget. cbn [bind].
  assert (Hne : corpus <> []) by (destruct corpus; [discriminate | congruence]).
  destruct links as [|l links]; cbn [List.length Nat.eqb].
  - rewrite (for_each_build (fun _ => 1 / len corpus)); auto.
    intros acc k _. now rewrite py_div_len.
  - rewrite (for_each_build
               (spec_transition corpus (l :: links) d)); auto.
    intros acc k _. rewrite py_div_len by exact Hne.
    unfold spec_transition. cbn [is_empty bind].
    destruct (set_mem k (l :: links)); cbn [bind]; [|reflexivity].
    rewrite py_div_len by discriminate. reflexivity.
Qed.

(** C2: for a current page that is a key of the corpus, with target set
    [links], [transition_model] returns one entry per page of the
    corpus: [1/N] for every page when [links] is empty, whatever the
    damping factor, and otherwise [(1-d)/N + d/L] for the targets of the
    current page and [(1-d)/N] for the other pages. *)
Theorem transition_model_formula (corpus : graph) (page : Page) (d : Q)
  (links : list Page) :
  NoDup (dict_keys corpus) ->
  dict_get corpus page = Ok links ->
  exists r,
    transition_model corpus page d = Ok r /\
    dict_keys r = dict_keys corpus /\
    forall p, In p (dict_keys corpus) ->
      dict_get r p =
      Ok (match links with
          | [] => 1 / len corpus
          | _ :: _ =>
              if set_mem p links
              then (1 - d) / len corpus + d / len links
              else (1 - d) / len corpus
          end).
Proof.
  intros Hnd Hget.
  eexists. split; [apply (transition_model_eq _ _ _ _ Hnd Hget)|].
  split; [apply dict_keys_map|].
  intros p Hp. apply dict_get_entry.
  - now rewrite dict_keys_map.
  - apply in_map_iff. exists p. split; [|exact Hp].
    unfold spec_transition. destruct links; reflexivity.
Qed.

(** C8: [transition_model] raises as soon as it looks the current page
    up, when that page is not a key of the corpus, and so also when the
    corpus is empty; Python's [KeyError] is the invalid-argument error
    here. *)
Theorem transition_model_invalid (corpus : graph) (page : Page) (d : Q) :
  ~ In page (dict_keys corpus) \/ corpus = [] ->
  transition_model corpus page d = Raise KeyError.
Proof.
  intros H. unfold transition_model.
  rewrite dict_get_missing; [reflexivity|].
  destruct H as [H| ->]; [exact H | simpl; tauto].
Qed.

Lemma Qsum_const {A : Type} (c : Q) (l : list A) :
  Qsum (map (fun _ => c) l) == len l * c.
Proof.
  unfold len. induction l as [|a l IH].
  - cbn [map Qsum fold_right List.length]. change (Q_of_nat 0) with 0. lra.
  - cbn [map Qsum fold_right List.length]. fold (Qsum (map (fun _ => c) l)).
    rewrite IH, Q_of_nat_succ. lra.
Qed.

Lemma Qsum_two_valued (links keys : list Page) (a b : Q) :
  Qsum (map (fun p => if set_mem p links then a + b else a) keys) ==
  len keys * a + len (filter (fun p => set_mem p links) keys) * b.
Proof.
  unfold len. induction keys as [|k keys IH].
  - cbn [map Qsum fold_right List.length filter].
    change (Q_of_nat 0) with 0. lra.
  - cbn [map Qsum fold_right filter List.length].
    fold (Qsum (map (fun p => if set_mem p links then a + b else a) keys)).
    rewrite IH. destruct (set_mem k links).
    + cbn [List.length]. rewrite !Q_of_nat_succ. lra.
    + rewrite Q_of_nat_succ. lra.
Qed.

Lemma count_links (links keys : list Page) :
  NoDup keys -> NoDup links -> incl links keys ->
  List.length (filter (fun p => set_mem p links) keys) = List.length links.
Proof.
  intros Hk Hl Hincl. apply Permutation_length, NoDup_Permutation.
  - now apply NoDup_filter.
  - exact Hl.
  - intros x. rewrite filter_In, set_mem_In. split; [tauto|].
    intros H. split; [apply Hincl|]; exact H.
Qed.

Lemma spec_transition_sum (corpus : graph) (links : list Page) (d : Q) :
  corpus <> [] ->
  NoDup (dict_keys corpus) -> NoDup links -> incl links (dict_keys corpus) ->
  Qsum (map (spec_transition corpus links d) (dict_keys corpus)) == 1.
Proof.
  intros Hne Hnd Hl Hincl. pose proof (len_pos corpus Hne) as HN.
  unfold spec_transition. destruct links as [|l links]; cbn [is_empty].
  - rewrite Qsum_const, len_keys. field. lra.
  - rewrite Qsum_two_valued, len_keys.
    assert (E : len (filter (fun p => set_mem p (l :: links)) (dict_keys corpus))
                = len (l :: links))
      by (unfold len; now rewrite count_links).
    rewrite E.
    assert (0 < len (l :: links)) by (apply len_pos; discriminate).
    field. split; lra.
Qed.

Lemma spec_transition_nonneg (corpus : graph) (links : list Page)
  (d : Q) (p : Page) :
  corpus <> [] -> 0 <= d <= 1 -> 0 <= spec_transition corpus links d p.
Proof.
  intros Hne Hd. pose proof (len_pos corpus Hne) as HN.
  assert (0 <= (1 - d) / len corpus)
    by (apply Qle_shift_div_l; [exact HN | lra]).
  unfold spec_transition. destruct links as [|l links]; cbn [is_empty].
  - apply Qle_shift_div_l; [exact HN | lra].
  - assert (0 <= d / len (l :: links)).
    { apply Qle_shift_div_l; [apply len_pos; discriminate | lra]. }
    destruct (set_mem p (l :: links)); lra.
Qed.

Lemma spec_transition_pos (corpus : graph) (links : list Page)
  (d : Q) (p : Page) :
  corpus <> [] -> 0 <= d < 1 -> 0 < spec_transition corpus links d p.
Proof.
  intros Hne Hd. pose proof (len_pos corpus Hne) as HN.
  assert (0 < (1 - d) / len corpus)
    by (apply Qlt_shift_div_l; [exact HN | lra]).
  unfold spec_transition. destruct links as [|l links]; cbn [is_empty].
  - apply Qlt_shift_div_l; [exact HN | lra].
  - assert (0 <= d / len (l :: links)).
    { apply Qle_shift_div_l; [apply len_pos; discriminate | lra]. }
    destruct (set_mem p (l :: links)); lra.
Qed.

Lemma valid_links (corpus : graph) (page : Page) (links : list Page) :
  well_formed corpus -> closed corpus ->
  dict_get corpus page = Ok links ->
  NoDup links /\ incl links (dict_keys corpus).
Proof.
  intros [_ Hs] Hc Hget. apply dict_get_In in Hget.
  unfold closed in Hc. rewrite Forall_forall in Hs, Hc.
  split; [apply (Hs _ Hget) | apply (Hc _ Hget)].
Qed.

(** C5, amended: for a valid corpus, a current page among its keys and a
    damping factor in [0,1], the distribution returned by
    [transition_model] covers every page, sums to 1 and is nowhere
    negative; it is strictly positive everywhere when the damping factor
    is below 1. *)
Theorem transition_model_distribution (corpus : graph) (page : Page) (d : Q) :
  valid_graph corpus ->
  In page (dict_keys corpus) ->
  0 <= d <= 1 ->
  exists r,
    transition_model corpus page d = Ok r /\
    dict_keys r = dict_keys corpus /\
    py_sum (dict_values r) == 1 /\
    (forall p v, In (p, v) r -> 0 <= v) /\
    (d < 1 -> forall p v, In (p, v) r -> 0 < v).
Proof.
  intros (Hwf & Hcl & _) Hpage Hd.
  destruct (dict_get_present _ _ Hpage) as [links Hget].
  destruct (valid_links _ _ _ Hwf Hcl Hget) as [Hl Hincl].
  assert (Hne : corpus <> []) by (destruct corpus; [destruct Hpage | congruence]).
  eexists. split; [apply (transition_model_eq _ _ _ _ (proj1 Hwf) Hget)|].
  split; [apply dict_keys_map|].
  split; [|split].
  - rewrite py_sum_Qsum, dict_values_map.
    apply spec_transition_sum; auto. apply Hwf.
  - intros p v Hin. apply in_map_iff in Hin. destruct Hin as (k & [= <- <-] & _).
    now apply spec_transition_nonneg.
  - intros Hlt p v Hin. apply in_map_iff in Hin.
    destruct Hin as (k & [= <- <-] & _).
    apply spec_transition_pos; [exact Hne | lra].
Qed.

(** ** iterate_pagerank: the recurrence *)

Lemma Qsum_cons (a : Q) (l : list Q) : Qsum (a :: l) = a + Qsum l.
Proof.
  reflexivity.
Qed.

Lemma rank_get (x : dist) (k : Page) (v : Q) :
  dict_get x k = Ok v -> rank x k = v.
Proof.
  unfold rank. now intros ->.
Qed.

Lemma rank_set_same (x : dist) (p : Page) (v : Q) :
  In p (dict_keys x) -> rank (dict_set x p v) p = v.
Proof.
  intros H. unfold rank. now rewrite dict_get_set_same.
Qed.

Lemma rank_set_other (x : dist) (p q : Page) (v : Q) :
  q <> p -> rank (dict_set x p v) q = rank x q.
Proof.
  intros H. unfold rank. now rewrite dict_get_set_other.
Qed.

Lemma share_nonneg (corpus : graph) (links : list Page) (p : Page) :
  0 <= share corpus links p.
Proof.
  unfold share.
  assert (0 <= 1 / len corpus).
  { unfold len. destruct (List.length corpus).
    - change (Q_of_nat 0) with 0. unfold Qdiv, Qinv; simpl. lra.
    - apply Qle_shift_div_l; [apply Q_of_nat_S_pos | lra]. }
  assert (0 <= 1 / len links).
  { unfold len. destruct (List.length links).
    - change (Q_of_nat 0) with 0. unfold Qdiv, Qinv; simpl. lra.
    - apply Qle_shift_div_l; [apply Q_of_nat_S_pos | lra]. }
  destruct (is_empty links), (set_mem p links); lra.
Qed.

Section Recurrence.
Variable corpus : graph.
Variable d : Q.
Hypothesis corpus_keys : NoDup (dict_keys corpus).

(** The loop over [corpus] computes the inflow of [page]. *)
Lemma prob_total_loop (x : dist) (page : Page) (es : graph) :
  incl es corpus ->
  incl (dict_keys corpus) (dict_keys x) ->
  forall acc, exists t,
    for_each (dict_keys es)
      (fun prob_total extra =>
         links <- dict_get corpus extra ;;
         prob_total <-
           (if is_empty links
            then r <- dict_get x extra ;;
                 v <- py_div r (len corpus) ;;
                 Ok (prob_total + v)
            else Ok prob_total) ;;
         if set_mem page links
         then r <- dict_get x extra ;;
              v <- py_div r (len links) ;;
              Ok (prob_total + v)
         else Ok prob_total) acc = Ok t /\
    t == acc +
         Qsum (map (fun e => share corpus (snd e) page * rank x (fst e)) es).
Proof.
  intros Hes Hx. induction es as [|[k links] es IH]; intros acc.
  - exists acc. split; [reflexivity | simpl; lra].
  - assert (Hin : In (k, links) corpus) by (apply Hes; now left).
    assert (Hne : corpus <> []) by (intros ->; destruct Hin).
    pose proof (len_pos corpus Hne) as HN.
    destruct (dict_get_present x k) as [r Hr].
    { apply Hx. apply (in_map fst) in Hin. exact Hin. }
    cbn [dict_keys map fst for_each].
    rewrite (dict_get_entry _ _ _ corpus_keys Hin). cbn [bind].
    rewrite Hr. cbn [bind].
    destruct links as [|l links]; cbn [is_empty bind].
    + cbn [set_mem existsb]. rewrite py_div_len by exact Hne. cbn [bind].
      destruct (IH (fun e He => Hes e (or_intror He)) (acc + r / len corpus))
        as (t & Ht & Et).
      exists t. split; [exact Ht|].
      rewrite Et, Qsum_cons. cbn [fst snd].
      unfold share at 2. cbn [is_empty set_mem existsb].
      rewrite (rank_get _ _ _ Hr). field. lra.
    + destruct (set_mem page (l :: links)) eqn:E; cbn [bind].
      * rewrite py_div_len by discriminate. cbn [bind].
        destruct (IH (fun e He => Hes e (or_intror He))
                    (acc + r / len (l :: links))) as (t & Ht & Et).
        exists t. split; [exact Ht|].
        rewrite Et, Qsum_cons. cbn [fst snd].
        unfold share at 2. cbn [is_empty]. rewrite E.
        rewrite (rank_get _ _ _ Hr).
        assert (0 < len (l :: links)) by (apply len_pos; discriminate).
        field. lra.
      * destruct (IH (fun e He => Hes e (or_intror He)) acc) as (t & Ht & Et).
        exists t. split; [exact Ht|].
        rewrite Et, Qsum_cons. cbn [fst snd].
        unfold share at 2. cbn [is_empty]. rewrite E. lra.
Qed.

Lemma prob_total_inflow (x : dist) (page : Page) :
  incl (dict_keys corpus) (dict_keys x) ->
  exists t, prob_total corpus x page = Ok t /\ t == inflow corpus x page.
Proof.
  intros Hx.
  destruct (prob_total_loop x page corpus (incl_refl _) Hx 0) as (t & Ht & Et).
  exists t. split; [exact Ht|]. rewrite Et. unfold inflow. lra.
Qed.
End Recurrence.

(** ** iterate_pagerank: one update lowers the residual *)

Lemma Qsum_map_le {A : Type} (f g : A -> Q) (l : list A) :
  (forall a, In a l -> f a <= g a) -> Qsum (map f l) <= Qsum (map g l).
Proof.
  induction l as [|a l IH]; intros H.
  - simpl. lra.
  - rewrite !map_cons, !Qsum_cons.
    assert (f a <= g a) by (apply H; now left).
    assert (Qsum (map f l) <= Qsum (map g l))
      by (apply IH; intros; apply H; now right).
    lra.
Qed.

Lemma Qsum_map_eq {A : Type} (f g : A -> Q) (l : list A) :
  (forall a, In a l -> f a == g a) -> Qsum (map f l) == Qsum (map g l).
Proof.
  intros H. apply Qle_antisym; apply Qsum_map_le; intros a Ha;
    rewrite (H a Ha); lra.
Qed.

Lemma Qsum_map_nonneg {A : Type} (f : A -> Q) (l : list A) :
  (forall a, In a l -> 0 <= f a) -> 0 <= Qsum (map f l).
Proof.
  induction l as [|a l IH]; intros H.
  - simpl. lra.
  - rewrite map_cons, Qsum_cons.
    assert (0 <= f a) by (apply H; now left).
    assert (0 <= Qsum (map f l)) by (apply IH; intros; apply H; now right).
    lra.
Qed.

Lemma Qsum_map_scale {A : Type} (f : A -> Q) (c : Q) (l : list A) :
  Qsum (map (fun a => c * f a) l) == c * Qsum (map f l).
Proof.
  induction l as [|a l IH].
  - simpl. lra.
  - rewrite !map_cons, !Qsum_cons, IH. lra.
Qed.

(** A sum in which the term of [p] is replaced and every other term
    grows by at most [c]. *)
Lemma Qsum_one_out (f g c : Page -> Q) (p : Page) (l : list Page) :
  NoDup l ->
  (forall q, q <> p -> g q <= f q + c q) ->
  g p <= c p ->
  Qsum (map g l) <=
  Qsum (map f l) + Qsum (map c l) -
  (if in_dec string_dec p l then f p else 0).
Proof.
  intros Hnd Hq Hp. induction Hnd as [|a l Ha Hnd IH].
  - simpl. lra.
  - rewrite !map_cons, !Qsum_cons.
    destruct (string_dec a p) as [->|Hne].
    + destruct (in_dec string_dec p (p :: l)) as [_|n]; [|exfalso; apply n; now left].
      destruct (in_dec string_dec p l) as [i|_]; [contradiction|].
      lra.
    + specialize (Hq a Hne).
      destruct (in_dec string_dec p (a :: l)) as [i|n];
        destruct (in_dec string_dec p l) as [i'|n']; try lra.
      * destruct i as [E|i]; [congruence | contradiction].
      * exfalso. apply n. now right.
Qed.

Section Update.
Variable corpus : graph.
Variable d : Q.
Hypothesis corpus_keys : NoDup (dict_keys corpus).

(** Writing [v] under [p] changes the inflow of [q] through the only
    entry of [p] in the corpus. *)
Lemma inflow_unchanged (x : dist) (p q : Page) (v : Q) (es : graph) :
  ~ In p (dict_keys es) ->
  Qsum (map (fun e => share corpus (snd e) q * rank (dict_set x p v) (fst e)) es)
  == Qsum (map (fun e => share corpus (snd e) q * rank x (fst e)) es).
Proof.
  intros H. apply Qsum_map_eq. intros [k l] Hin. cbn [fst snd].
  rewrite rank_set_other; [lra|].
  intros ->. apply H. apply (in_map fst) in Hin. exact Hin.
Qed.

Lemma inflow_changed (x : dist) (p q : Page) (v : Q) (links : list Page)
  (es : graph) :
  In p (dict_keys x) ->
  NoDup (dict_keys es) ->
  In (p, links) es ->
  Qsum (map (fun e => share corpus (snd e) q * rank (dict_set x p v) (fst e)) es)
  == Qsum (map (fun e => share corpus (snd e) q * rank x (fst e)) es)
     + share corpus links q * (v - rank x p).
Proof.
  intros Hx. induction es as [|[k l] es IH]; intros Hnd Hin; [destruct Hin|].
  rewrite !map_cons, !Qsum_cons. cbn [fst snd].
  inversion Hnd as [|? ? Hk Hnd']; subst.
  destruct Hin as [[= -> ->]|Hin].
  - rewrite inflow_unchanged by exact Hk.
    rewrite rank_set_same by exact Hx. lra.
  - rewrite IH by assumption.
    rewrite rank_set_other; [lra|].
    intros ->. apply Hk. apply (in_map fst) in Hin. exact Hin.
Qed.

Lemma inflow_set (x : dist) (p q : Page) (v : Q) (links : list Page) :
  In p (dict_keys x) ->
  dict_get corpus p = Ok links ->
  inflow corpus (dict_set x p v) q ==
  inflow corpus x q + share corpus links q * (v - rank x p).
Proof.
  intros Hx Hget. apply inflow_changed; auto.
  now apply dict_get_In.
Qed.

(** The shares that one page hands out add up to at most 1. *)
Lemma share_column (links l : list Page) :
  NoDup l -> incl l (dict_keys corpus) ->
  Qsum (map (share corpus links) l) <= 1.
Proof.
  intros Hnd Hincl. unfold share.
  destruct links as [|t links]; cbn [is_empty].
  - destruct l as [|a l]; [simpl; lra|].
    assert (Hne : corpus <> []).
    { intros ->. apply (Hincl a). now left. }
    pose proof (len_pos corpus Hne) as HN.
    rewrite (Qsum_map_eq _ (fun _ => 1 / len corpus))
      by (intros; cbn; lra).
    rewrite Qsum_const.
    assert (Hle : len (a :: l) <= len corpus).
    { rewrite <- len_keys. apply Q_of_nat_le.
      now apply NoDup_incl_length. }
    assert (len (a :: l) / len corpus <= 1)
      by (apply Qle_shift_div_r; lra).
    unfold Qdiv in *. lra.
  - rewrite (Qsum_map_eq _
               (fun p => if set_mem p (t :: links)
                         then 0 + 1 / len (t :: links) else 0)).
    2:{ intros a _. destruct (set_mem a (t :: links)); lra. }
    rewrite Qsum_two_valued.
    assert (HL : 0 < len (t :: links)) by (apply len_pos; discriminate).
    assert (Hle : len (filter (fun p => set_mem p (t :: links)) l)
                  <= len (t :: links)).
    { apply Q_of_nat_le. apply NoDup_incl_length.
      - now apply NoDup_filter.
      - intros a Ha. apply filter_In in Ha. now apply set_mem_In. }
    assert (len (filter (fun p => set_mem p (t :: links)) l) /
            len (t :: links) <= 1)
      by (apply Qle_shift_div_r; lra).
    unfold Qdiv in *. lra.
Qed.

(** Storing the recomputed rank of [p] lowers the residual of the
    active pages by at least [(1 - d)] times the size of the change. *)
Lemma residual_update (x : dist) (l : list Page) (p : Page) (v : Q)
  (links : list Page) :
  0 <= d ->
  NoDup l -> incl l (dict_keys corpus) -> In p l ->
  In p (dict_keys x) ->
  dict_get corpus p = Ok links ->
  v == newRank corpus d x p ->
  residual corpus d (dict_set x p v) l <=
  residual corpus d x l - (1 - d) * Qabs (v - rank x p).
Proof.
  intros Hd Hnd Hincl Hp Hx Hget Hv. unfold residual.
  set (delta := v - rank x p).
  set (c := fun q => d * Qabs delta * share corpus links q).
  pose proof (Qsum_one_out
                (fun q => Qabs (newRank corpus d x q - rank x q))
                (fun q => Qabs (newRank corpus d (dict_set x p v) q -
                                rank (dict_set x p v) q))
                c p l Hnd) as H.
  cbv beta in H.
  destruct (in_dec string_dec p l) as [_|n]; [|contradiction].
  assert (Habs : forall q, Qabs (d * share corpus links q * delta) ==
                           c q).
  { intros q. unfold c. rewrite !Qabs_Qmult.
    rewrite (Qabs_pos d) by exact Hd.
    rewrite (Qabs_pos (share corpus links q)) by apply share_nonneg.
    lra. }
  assert (Hc : Qsum (map c l) <= d * Qabs delta).
  { unfold c. rewrite Qsum_map_scale.
    pose proof (share_column links l Hnd Hincl) as H0.
    pose proof (Qabs_nonneg delta) as H1.
    assert (H2 : 0 <= d * Qabs delta) by (apply Qmult_le_0_compat; lra).
    pose proof (Qmult_le_compat_r _ _ (d * Qabs delta) H0 H2). lra. }
  assert (Hdelta : Qabs (newRank corpus d x p - rank x p) == Qabs delta).
  { unfold delta. now rewrite Hv. }
  rewrite Hdelta in H.
  enough (Qsum
            (map (fun q => Qabs (newRank corpus d (dict_set x p v) q -
                                 rank (dict_set x p v) q)) l) <=
          Qsum (map (fun q => Qabs (newRank corpus d x q - rank x q)) l) +
          Qsum (map c l) - Qabs delta) by lra.
  apply H.
  - intros q Hq. rewrite <- Habs.
    setoid_replace (newRank corpus d (dict_set x p v) q -
                    rank (dict_set x p v) q)
      with ((newRank corpus d x q - rank x q) +
            d * share corpus links q * delta).
    + apply Qabs_triangle.
    + unfold newRank. rewrite (inflow_set x p q v links Hx Hget).
      rewrite rank_set_other by exact Hq. unfold delta. lra.
  - rewrite <- Habs.
    setoid_replace (newRank corpus d (dict_set x p v) p -
                    rank (dict_set x p v) p)
      with (d * share corpus links p * delta); [lra|].
    unfold newRank. rewrite (inflow_set x p p v links Hx Hget).
    rewrite rank_set_same by exact Hx.
    unfold newRank in Hv. unfold delta, Qdiv in *. lra.
Qed.
End Update.

(** ** iterate_pagerank: the loops *)

Lemma list_remove_present (l : list Page) (p : Page) :
  In p l -> exists l', list_remove l p = Ok l'.
Proof.
  induction l as [|a l IH]; intros H; [destruct H|].
  simpl. destruct (String.eqb_spec p a) as [->|Hne]; [eauto|].
  destruct IH as [l' Hl']; [destruct H; congruence|].
  rewrite Hl'. simpl. eauto.
Qed.

Lemma list_remove_Ok (l l' : list Page) (p : Page) :
  list_remove l p = Ok l' ->
  List.length l = S (List.length l') /\
  incl l' l /\
  (NoDup l -> NoDup l') /\
  forall f : Page -> Q, Qsum (map f l) == f p + Qsum (map f l').
Proof.
  revert l'. induction l as [|a l IH]; intros l'; simpl; [discriminate|].
  destruct (String.eqb_spec p a) as [->|Hne].
  - intros [= ->]. split; [|split; [|split]].
    + reflexivity.
    + apply incl_tl, incl_refl.
    + intros H. now inversion H.
    + intros f. lra.
  - intros H. apply bind_Ok in H. destruct H as (r & Hr & [= <-]).
    destruct (IH r Hr) as (Hlen & Hincl & Hnd & Hsum).
    split; [|split; [|split]].
    + simpl. now rewrite Hlen.
    + intros b [->|Hb]; [now left | right; now apply Hincl].
    + intros H. inversion H as [|? ? Ha Hl]; subst. constructor; [|auto].
      intros Hin. apply Ha. now apply Hincl.
    + intros f. rewrite !map_cons, !Qsum_cons, (Hsum f). lra.
Qed.

(** The steps that [pass] grants its [for] statement are never used up:
    the iterator runs off the end of the list first, so that more steps
    change nothing. *)
Lemma for_candidates_enough (corpus : graph) (d : Q) (steps : nat) :
  forall (idx : nat) (cands : list Page) (x : dist) (extra : nat),
  (List.length cands - idx <= steps)%nat ->
  for_candidates (steps + extra) corpus d idx cands x =
  for_candidates steps corpus d idx cands x.
Proof.
  induction steps as [|steps IH]; intros idx cands x extra Hlen.
  - assert (Hnone : nth_error cands idx = None)
      by (apply nth_error_None; lia).
    destruct extra; [reflexivity|].
    cbn [Nat.add for_candidates]. now rewrite Hnone.
  - cbn [Nat.add for_candidates].
    destruct (nth_error cands idx) as [p|] eqn:Hnth; [|reflexivity].
    assert (Hidx : (idx < List.length cands)%nat)
      by (apply nth_error_Some; congruence).
    destruct (prob_total corpus x p) as [t|e]; [|reflexivity]. cbn [bind].
    destruct (py_div (1 - d) (len corpus)) as [b|e]; [|reflexivity].
    cbn [bind].
    destruct (dict_get x p) as [old|e]; [|reflexivity]. cbn [bind].
    destruct (Qltb (Qabs (b + d * t - old)) threshold).
    + destruct (list_remove cands p) as [cands'|e] eqn:Hrem; [|reflexivity].
      cbn [bind]. apply IH.
      apply list_remove_Ok in Hrem. destruct Hrem as (Hl & _). lia.
    + cbn [bind]. apply IH. lia.
Qed.

Lemma pass_steps (corpus : graph) (d : Q) (cands : list Page) (x : dist)
  (extra : nat) :
  for_candidates (List.length cands + extra) corpus d 0 cands x =
  pass corpus d cands x.
Proof.
  unfold pass. apply for_candidates_enough. lia.
Qed.

Section Loops.
Variable corpus : graph.
Variable d : Q.
Hypothesis corpus_keys : NoDup (dict_keys corpus).
Hypothesis d_range : 0 <= d < 1.

Lemma progress_pos : 0 < progress d.
Proof.
  unfold progress, threshold. destruct d_range.
  apply Qmult_lt_0_compat; [lra | reflexivity].
Qed.

Lemma residual_nonneg (x : dist) (l : list Page) :
  0 <= residual corpus d x l.
Proof.
  apply Qsum_map_nonneg. intros; apply Qabs_nonneg.
Qed.

Lemma inflow_nonneg (x : dist) (p : Page) :
  (forall k, In k (dict_keys corpus) -> 0 < rank x k) ->
  0 <= inflow corpus x p.
Proof.
  intros H. apply Qsum_map_nonneg. intros [k l] Hin. cbn [fst snd].
  apply Qmult_le_0_compat; [apply share_nonneg|].
  apply Qlt_le_weak, H. apply (in_map fst) in Hin. exact Hin.
Qed.

Lemma newRank_pos (x : dist) (p : Page) :
  corpus <> [] ->
  (forall k, In k (dict_keys corpus) -> 0 < rank x k) ->
  0 < newRank corpus d x p.
Proof.
  intros Hne H. unfold newRank.
  assert (0 < (1 - d) / len corpus).
  { apply Qlt_shift_div_l; [now apply len_pos | lra]. }
  assert (0 <= d * inflow corpus x p).
  { apply Qmult_le_0_compat; [lra | now apply inflow_nonneg]. }
  lra.
Qed.

(** One turn of the [for] loop on the page under the iterator. *)
Lemma for_candidates_turn (steps idx : nat) (cands : list Page) (x : dist)
  (p : Page) :
  state_ok corpus cands x ->
  nth_error cands idx = Some p ->
  exists cands' x',
    for_candidates (S steps) corpus d idx cands x =
    for_candidates steps corpus d (S idx) cands' x' /\
    state_ok corpus cands' x' /\
    potential corpus d cands' x' <= potential corpus d cands x - progress d.
Proof.
  intros (Hnd & Hincl & Hkeys & Hpos) Hnth.
  assert (Hp : In p cands) by (eapply nth_error_In; eauto).
  assert (Hpc : In p (dict_keys corpus)) by now apply Hincl.
  assert (Hpx : In p (dict_keys x)) by now rewrite Hkeys.
  assert (Hne : corpus <> []) by (intros ->; destruct Hpc).
  destruct (prob_total_inflow corpus corpus_keys x p) as (t & Ht & Et).
  { rewrite Hkeys. apply incl_refl. }
  destruct (dict_get_present x p Hpx) as [old Hold].
  destruct (dict_get_present corpus p Hpc) as [links Hlinks].
  set (v := (1 - d) / len corpus + d * t).
  assert (Hv : v == newRank corpus d x p).
  { unfold v, newRank. now rewrite Et. }
  assert (Hold' : rank x p = old) by now apply rank_get.
  pose proof (residual_update corpus d corpus_keys x cands p v links
                (proj1 d_range) Hnd Hincl Hp Hpx Hlinks Hv) as Hres.
  rewrite Hold' in Hres.
  assert (Hpos' : forall k, In k (dict_keys corpus) ->
                            0 < rank (dict_set x p v) k).
  { intros k Hk. destruct (string_dec k p) as [->|Hkp].
    - rewrite rank_set_same by exact Hpx. rewrite Hv.
      now apply newRank_pos.
    - rewrite rank_set_other by exact Hkp. now apply Hpos. }
  assert (Hkeys' : dict_keys (dict_set x p v) = dict_keys corpus).
  { now rewrite dict_set_keys. }
  cbn [for_candidates]. rewrite Hnth, Ht. cbn [bind].
  rewrite py_div_len by exact Hne. cbn [bind]. rewrite Hold. cbn [bind].
  fold v.
  destruct (Qltb (Qabs (v - old)) threshold) eqn:E.
  - destruct (list_remove_present cands p Hp) as [cands' Hrem].
    rewrite Hrem. cbn [bind].
    destruct (list_remove_Ok _ _ _ Hrem) as (Hlen & Hsub & Hnd' & Hsum).
    exists cands', (dict_set x p v). split; [reflexivity|]. split.
    + split; [auto|]. split; [|split; assumption].
      intros a Ha. apply Hincl, Hsub, Ha.
    + unfold potential. fold (progress d).
      assert (residual corpus d (dict_set x p v) cands' <=
              residual corpus d (dict_set x p v) cands).
      { unfold residual. rewrite (Hsum _).
        match goal with |- _ <= Qabs ?a + _ =>
          pose proof (Qabs_nonneg a) end. lra. }
      assert (len cands == len cands' + 1).
      { unfold len. rewrite Hlen. apply Q_of_nat_succ. }
      pose proof (Qabs_nonneg (v - old)).
      assert (0 <= (1 - d) * Qabs (v - old))
        by (apply Qmult_le_0_compat; lra).
      rewrite H0. lra.
  - cbn [bind]. exists cands, (dict_set x p v).
    split; [reflexivity|]. split.
    + split; [assumption|]. split; [assumption|]. split; assumption.
    + unfold potential. fold (progress d).
      apply Qltb_ge in E.
      assert (progress d <= (1 - d) * Qabs (v - old)).
      { unfold progress. rewrite !(Qmult_comm (1 - d)).
        apply Qmult_le_compat_r; lra. }
      lra.
Qed.

(** A whole [for] statement never raises, keeps the invariant and never
    raises the potential; it lowers it when it runs at least once. *)
Lemma for_candidates_total (steps : nat) :
  forall (idx : nat) (cands : list Page) (x : dist),
  state_ok corpus cands x ->
  exists cands' x',
    for_candidates steps corpus d idx cands x = Ok (cands', x') /\
    state_ok corpus cands' x' /\
    potential corpus d cands' x' <= potential corpus d cands x /\
    ((0 < steps)%nat -> (idx < List.length cands)%nat ->
     potential corpus d cands' x' <= potential corpus d cands x - progress d).
Proof.
  pose proof progress_pos as Hstep.
  induction steps as [|steps IH]; intros idx cands x Hok.
  - exists cands, x. split; [reflexivity|]. split; [exact Hok|].
    split; [lra | lia].
  - destruct (nth_error cands idx) as [p|] eqn:Hnth.
    + destruct (for_candidates_turn steps idx cands x p Hok Hnth)
        as (c1 & x1 & Heq & Hok1 & Hpot1).
      destruct (IH (S idx) c1 x1 Hok1) as (c2 & x2 & Hrun & Hok2 & Hpot2 & _).
      exists c2, x2. rewrite Heq. split; [exact Hrun|].
      split; [exact Hok2|]. split; [lra | intros; lra].
    + exists cands, x. cbn [for_candidates]. rewrite Hnth.
      split; [reflexivity|]. split; [exact Hok|]. split; [lra|].
      intros _ Hlt. apply nth_error_None in Hnth. lia.
Qed.

Lemma pass_progress (cands : list Page) (x : dist) :
  state_ok corpus cands x -> cands <> [] ->
  exists cands' x',
    pass corpus d cands x = Ok (cands', x') /\
    state_ok corpus cands' x' /\
    potential corpus d cands' x' <= potential corpus d cands x - progress d.
Proof.
  intros Hok Hne. unfold pass.
  destruct (for_candidates_total (List.length cands) 0 cands x Hok)
    as (c' & x' & Hrun & Hok' & _ & Hpot).
  exists c', x'. split; [exact Hrun|]. split; [exact Hok'|].
  destruct cands; [congruence|]. apply Hpot; simpl; lia.
Qed.

(** The [while] loop ends within [fuel] passes as soon as the potential
    is at most [fuel] steps. *)
Lemma while_candidates_ends (fuel : nat) :
  forall (cands : list Page) (x : dist),
  state_ok corpus cands x ->
  potential corpus d cands x <= progress d * Q_of_nat fuel ->
  exists r,
    while_candidates fuel corpus d cands x = Some (Ok r) /\
    state_ok corpus [] r.
Proof.
  pose proof progress_pos as Hstep.
  induction fuel as [|fuel IH]; intros cands x Hok Hpot.
  - destruct cands as [|a cands].
    + exists x. split; [reflexivity | exact Hok].
    + exfalso. unfold potential in Hpot. fold (progress d) in Hpot.
      pose proof (residual_nonneg x (a :: cands)).
      pose proof (len_pos (a :: cands) ltac:(discriminate)).
      change (Q_of_nat 0) with 0 in Hpot.
      assert (0 < progress d * len (a :: cands))
        by (apply Qmult_lt_0_compat; lra).
      lra.
  - destruct cands as [|a cands].
    + exists x. split; [reflexivity | exact Hok].
    + destruct (pass_progress (a :: cands) x Hok ltac:(discriminate))
        as (c' & x' & Hrun & Hok' & Hpot').
      cbn [while_candidates]. rewrite Hrun.
      apply IH; [exact Hok'|].
      rewrite Q_of_nat_succ in Hpot. lra.
Qed.
End Loops.

(** ** Loops that rewrite a dictionary in place *)

Section InPlace.
Context {V : Type}.
Implicit Types (d : dict V) (k : Page) (v : V).

Lemma dict_keys_app d1 d2 : dict_keys (d1 ++ d2) = dict_keys d1 ++ dict_keys d2.
Proof.
  apply map_app.
Qed.

Lemma dict_get_app_r d1 d2 k :
  ~ In k (dict_keys d1) -> dict_get (d1 ++ d2) k = dict_get d2 k.
Proof.
  induction d1 as [|[k' v'] d1 IH]; simpl; [reflexivity|].
  intros H. destruct (String.eqb_spec k k') as [->|Hne]; [tauto|].
  apply IH. tauto.
Qed.

Lemma dict_set_app_r d1 d2 k v :
  ~ In k (dict_keys d1) -> dict_set (d1 ++ d2) k v = d1 ++ dict_set d2 k v.
Proof.
  induction d1 as [|[k' v'] d1 IH]; simpl; [reflexivity|].
  intros H. destruct (String.eqb_spec k k') as [->|Hne]; [tauto|].
  f_equal. apply IH. tauto.
Qed.

(** [for k in d: d[k] = h(k, d[k])] rewrites every value once. *)
Lemma for_each_update (h : Page -> V -> V)
  (body : dict V -> Page -> outcome (dict V)) (done todo : dict V) :
  NoDup (dict_keys (done ++ todo)) ->
  (forall acc k old, In k (dict_keys todo) -> dict_get acc k = Ok old ->
                     body acc k = Ok (dict_set acc k (h k old))) ->
  for_each (dict_keys todo) body (done ++ todo) =
  Ok (done ++ map (fun e => (fst e, h (fst e) (snd e))) todo).
Proof.
  revert done. induction todo as [|[k v] todo IH]; intros done Hnd Hbody.
  - reflexivity.
  - rewrite dict_keys_app in Hnd. cbn [dict_keys map fst] in Hnd.
    pose proof (NoDup_remove_2 _ _ _ Hnd) as Hk.
    rewrite in_app_iff in Hk.
    cbn [dict_keys map fst for_each].
    rewrite (Hbody _ k v); [|now left|].
    2:{ rewrite dict_get_app_r by tauto. simpl.
        now rewrite String.eqb_refl. }
    cbn [bind]. rewrite dict_set_app_r by tauto.
    cbn [dict_set]. rewrite String.eqb_refl.
    change (done ++ (k, h k v) :: todo)
      with (done ++ [(k, h k v)] ++ todo).
    rewrite app_assoc. fold (dict_keys todo).
    rewrite IH.
    + rewrite <- app_assoc. reflexivity.
    + rewrite <- app_assoc, dict_keys_app. exact Hnd.
    + intros acc k' old Hk' Hget. apply Hbody; [now right | exact Hget].
Qed.

(** [for k in keys: d[k] = c] on an empty dictionary. *)
Lemma fold_left_build (c : V) (keys : list Page) :
  NoDup keys ->
  forall acc, (forall k, In k keys -> ~ In k (dict_keys acc)) ->
  fold_left (fun acc k => dict_set acc k c) keys acc =
  acc ++ map (fun k => (k, c)) keys.
Proof.
  intros Hnd. induction Hnd as [|k keys Hk Hnd IH]; intros acc Hacc.
  - simpl. now rewrite app_nil_r.
  - simpl. rewrite dict_set_new by (apply Hacc; now left).
    rewrite IH.
    + now rewrite <- app_assoc.
    + intros k' Hk'. rewrite dict_keys_app, in_app_iff. simpl.
      intros [H|[->|[]]]; [|tauto].
      apply (Hacc k'); [now right | exact H].
Qed.
End InPlace.

Lemma divide_all_Ok (x : dist) (c : Q) :
  NoDup (dict_keys x) -> ~ c == 0 ->
  divide_all x c = Ok (map (fun e => (fst e, snd e / c)) x).
Proof.
  intros Hnd Hc. unfold divide_all.
  apply (for_each_update (fun _ v => v / c) _ [] x Hnd).
  intros acc k old _ Hget. rewrite Hget. cbn [bind].
  now rewrite py_div_Ok.
Qed.

Lemma divide_all_zero (x : dist) (c : Q) :
  x <> [] -> c == 0 -> divide_all x c = Raise ZeroDivisionError.
Proof.
  intros Hne Hc. destruct x as [|[k v] x]; [congruence|].
  unfold divide_all. cbn [dict_keys map fst for_each dict_get].
  rewrite String.eqb_refl. cbn [bind]. now rewrite py_div_zero.
Qed.

Lemma divide_all_sum (x : dist) (c : Q) :
  ~ c == 0 ->
  Qsum (dict_values (map (fun e : Page * Q => (fst e, snd e / c)) x)) ==
  Qsum (dict_values x) / c.
Proof.
  intros Hc. unfold dict_values. rewrite map_map. cbn [snd].
  rewrite (Qsum_map_div snd c x). reflexivity.
Qed.

Lemma divide_all_keys (x : dist) (c : Q) :
  dict_keys (map (fun e : Page * Q => (fst e, snd e / c)) x) = dict_keys x.
Proof.
  unfold dict_keys. rewrite map_map. reflexivity.
Qed.

(** Dividing every entry by the sum of the entries leaves a sum of 1. *)
Lemma normalize_sum (x r : dist) :
  NoDup (dict_keys x) -> x <> [] ->
  divide_all x (py_sum (dict_values x)) = Ok r ->
  dict_keys r = dict_keys x /\ py_sum (dict_values r) == 1.
Proof.
  intros Hnd Hne Hr.
  destruct (Qeq_dec (py_sum (dict_values x)) 0) as [Hz|Hnz].
  - rewrite divide_all_zero in Hr by assumption. discriminate.
  - rewrite divide_all_Ok in Hr by assumption. injection Hr as <-.
    split; [apply divide_all_keys|].
    rewrite py_sum_Qsum, divide_all_sum by exact Hnz.
    rewrite <- py_sum_Qsum. field. exact Hnz.
Qed.

(** ** iterate_pagerank: what holds of every run *)

Lemma for_candidates_keys (corpus : graph) (d : Q) (steps : nat) :
  forall idx cands x cands' x',
  for_candidates steps corpus d idx cands x = Ok (cands', x') ->
  dict_keys x' = dict_keys x.
Proof.
  induction steps as [|steps IH]; intros idx cands x cands' x' H.
  - injection H as _ <-. reflexivity.
  - cbn [for_candidates] in H.
    destruct (nth_error cands idx) as [p|]; [|injection H as _ <-; reflexivity].
    apply bind_Ok in H. destruct H as (t & _ & H).
    apply bind_Ok in H. destruct H as (b & _ & H).
    apply bind_Ok in H. destruct H as (old & Hold & H).
    apply bind_Ok in H. destruct H as (c1 & _ & H).
    rewrite (IH _ _ _ _ _ H). apply dict_set_keys.
    now apply dict_get_key in Hold.
Qed.

Lemma while_candidates_keys (corpus : graph) (d : Q) (fuel : nat) :
  forall cands x r,
  while_candidates fuel corpus d cands x = Some (Ok r) ->
  dict_keys r = dict_keys x.
Proof.
  induction fuel as [|fuel IH]; intros cands x r H.
  - destruct cands; [injection H as <-; reflexivity | discriminate].
  - destruct cands as [|a cands]; [injection H as <-; reflexivity|].
    cbn [while_candidates] in H.
    destruct (pass corpus d (a :: cands) x) as [[c' x']|e] eqn:Hpass;
      [|discriminate].
    rewrite (IH _ _ _ H). unfold pass in Hpass.
    apply (for_candidates_keys _ _ _ _ _ _ _ _ Hpass).
Qed.

(** More passes than needed change nothing. *)
Lemma while_candidates_more (corpus : graph) (d : Q) (fuel : nat) :
  forall fuel' cands x o,
  (fuel <= fuel')%nat ->
  while_candidates fuel corpus d cands x = Some o ->
  while_candidates fuel' corpus d cands x = Some o.
Proof.
  induction fuel as [|fuel IH]; intros fuel' cands x o Hle H.
  - destruct cands; [|discriminate]. destruct fuel'; exact H.
  - destruct cands as [|a cands]; [destruct fuel'; exact H|].
    destruct fuel' as [|fuel']; [lia|].
    cbn [while_candidates] in *.
    destruct (pass corpus d (a :: cands) x) as [[c' x']|e]; [|exact H].
    apply IH; [lia | exact H].
Qed.

Lemma iterate_pagerank_more (corpus : graph) (d : Q) (fuel fuel' : nat)
  (o : outcome dist) :
  (fuel <= fuel')%nat ->
  iterate_pagerank fuel corpus d = Some o ->
  iterate_pagerank fuel' corpus d = Some o.
Proof.
  intros Hle. unfold iterate_pagerank.
  destruct (py_div 1 (len corpus)) as [initial_prob|e]; [|auto].
  set (w := while_candidates fuel corpus d _ _).
  destruct w as [o'|] eqn:Hw; [|discriminate].
  subst w. rewrite (while_candidates_more _ _ _ fuel' _ _ _ Hle Hw). auto.
Qed.

Lemma initial_probabilities (corpus : graph) (c : Q) :
  NoDup (dict_keys corpus) ->
  fold_left (fun probabilities page => dict_set probabilities page c)
    (dict_keys corpus) [] = map (fun k => (k, c)) (dict_keys corpus).
Proof.
  intros Hnd. rewrite (fold_left_build c _ Hnd []); [reflexivity|].
  intros k _ [].
Qed.

Lemma rank_constant (keys : list Page) (c : Q) (k : Page) :
  In k keys -> rank (map (fun k => (k, c)) keys) k = c.
Proof.
  intros H. unfold rank.
  induction keys as [|a keys IH]; [destruct H|].
  simpl. destruct (String.eqb_spec k a) as [->|Hne]; [reflexivity|].
  apply IH. destruct H; congruence.
Qed.

Lemma nat_above (q : Q) : exists n : nat, q <= Q_of_nat n.
Proof.
  exists (Z.to_nat (Qceiling q)). unfold Q_of_nat.
  apply Qle_trans with (inject_Z (Qceiling q)); [apply Qle_ceiling|].
  rewrite <- Zle_Qle. lia.
Qed.

Lemma positive_values_sum (x : dist) :
  x <> [] -> NoDup (dict_keys x) ->
  (forall k, In k (dict_keys x) -> 0 < rank x k) ->
  0 < py_sum (dict_values x).
Proof.
  intros Hne Hnd Hpos. rewrite py_sum_Qsum. apply Qsum_pos.
  - destruct x; [congruence | discriminate].
  - apply Forall_forall. intros v Hv. unfold dict_values in Hv.
    apply in_map_iff in Hv. destruct Hv as ([k v'] & <- & Hin). cbn [snd].
    rewrite <- (rank_get x k v').
    + apply Hpos. apply (in_map fst) in Hin. exact Hin.
    + now apply dict_get_entry.
Qed.

(** For a damping factor in [0,1) the loop of [iterate_pagerank] ends and
    the function returns a distribution over the pages that sums to 1. *)
Lemma iterate_pagerank_result (corpus : graph) (d : Q) :
  NoDup (dict_keys corpus) -> corpus <> [] -> 0 <= d < 1 ->
  exists fuel x r,
    while_candidates fuel corpus d (dict_keys corpus)
      (map (fun k => (k, 1 / len corpus)) (dict_keys corpus)) = Some (Ok x) /\
    iterate_pagerank fuel corpus d = Some (Ok r) /\
    dict_keys r = dict_keys corpus /\
    py_sum (dict_values r) == 1 /\
    forall k v, In (k, v) r -> 0 < v.
Proof.
  intros Hnd Hne Hd. pose proof (len_pos corpus Hne) as HN.
  set (x0 := map (fun k => (k, 1 / len corpus)) (dict_keys corpus)).
  assert (Hok : state_ok corpus (dict_keys corpus) x0).
  { split; [exact Hnd|]. split; [apply incl_refl|].
    split; [apply dict_keys_map|].
    intros k Hk. unfold x0. rewrite rank_constant by exact Hk.
    apply Qlt_shift_div_l; lra. }
  pose proof (progress_pos d Hd) as Hstep. unfold progress in Hstep.
  destruct (nat_above (potential corpus d (dict_keys corpus) x0 /
                       ((1 - d) * threshold))) as [fuel Hfuel].
  apply (Qmult_le_compat_r _ _ ((1 - d) * threshold)) in Hfuel; [|lra].
  assert (Hfuel' : potential corpus d (dict_keys corpus) x0 <=
                   (1 - d) * threshold * Q_of_nat fuel).
  { rewrite (Qmult_comm _ (Q_of_nat fuel)).
    eapply Qle_trans; [|exact Hfuel].
    apply Qle_lteq. right. field. unfold threshold. split; [discriminate | lra]. }
  clear Hfuel.
  destruct (while_candidates_ends corpus d Hnd Hd fuel _ _ Hok Hfuel')
    as (x & Hx & _ & _ & Hkeys & Hpos).
  assert (Hxne : x <> []).
  { intros ->. destruct corpus; [congruence | discriminate]. }
  assert (Hxnd : NoDup (dict_keys x)) by now rewrite Hkeys.
  assert (Htot : 0 < py_sum (dict_values x)).
  { apply positive_values_sum; auto. now rewrite Hkeys. }
  exists fuel, x, (map (fun e => (fst e, snd e / py_sum (dict_values x))) x).
  split; [exact Hx|].
  assert (Hrun : iterate_pagerank fuel corpus d =
                 Some (divide_all x (py_sum (dict_values x)))).
  { unfold iterate_pagerank. rewrite py_div_len by exact Hne.
    rewrite initial_probabilities by exact Hnd. fold x0. now rewrite Hx. }
  assert (Hdiv := divide_all_Ok x (py_sum (dict_values x)) Hxnd
                    ltac:(lra)).
  rewrite Hdiv in Hrun. split; [exact Hrun|].
  destruct (normalize_sum x _ Hxnd Hxne Hdiv) as [Hk Hs].
  split; [now rewrite Hk|]. split; [exact Hs|].
  intros k v Hin. apply in_map_iff in Hin.
  destruct Hin as ([k' v'] & [= <- <-] & Hin). cbn [snd].
  apply Qlt_shift_div_l; [exact Htot|].
  rewrite Qmult_0_l. rewrite <- (rank_get x k' v').
  - apply Hpos. rewrite <- Hkeys. apply (in_map fst) in Hin. exact Hin.
  - now apply dict_get_entry.
Qed.

(** Whatever the damping factor and the budget, a result of
    [iterate_pagerank] has the keys of the corpus and sums to 1. *)
Lemma iterate_pagerank_returned (corpus : graph) (d : Q) (fuel : nat)
  (r : dist) :
  NoDup (dict_keys corpus) ->
  iterate_pagerank fuel corpus d = Some (Ok r) ->
  dict_keys r = dict_keys corpus /\ py_sum (dict_values r) == 1.
Proof.
  intros Hnd H. unfold iterate_pagerank in H.
  destruct corpus as [|e corpus].
  - rewrite py_div_zero in H by reflexivity. discriminate.
  - rewrite py_div_len in H by discriminate.
    rewrite initial_probabilities in H by exact Hnd.
    set (x0 := map _ _) in H.
    destruct (while_candidates fuel _ d _ x0) as [[x|err]|] eqn:Hw;
      try discriminate.
    injection H as H.
    apply while_candidates_keys in Hw.
    unfold x0 in Hw. rewrite dict_keys_map in Hw.
    assert (Hxne : x <> []) by (intros ->; discriminate).
    destruct (normalize_sum x r) as [Hk Hs]; auto.
    + now rewrite Hw.
    + split; [congruence | exact Hs].
Qed.

(** ** The random draws *)

Lemma random_choice_Ok {A : Type} (raw : N) (seq : list A) :
  seq <> [] -> exists a, random_choice raw seq = Ok a /\ In a seq.
Proof.
  intros Hne. destruct seq as [|b seq]; [congruence|].
  unfold random_choice.
  destruct (nth_error (b :: seq) (randbelow raw (List.length (b :: seq))))
    as [a|] eqn:E.
  - exists a. split; [reflexivity|]. eapply nth_error_In; eauto.
  - exfalso. apply nth_error_None in E. unfold randbelow in E.
    assert (raw mod N.of_nat (List.length (b :: seq)) <
            N.of_nat (List.length (b :: seq)))%N
      by (apply N.mod_lt; simpl; lia).
    lia.
Qed.

Lemma accumulate_from_length (acc : Q) (l : list Q) :
  List.length (accumulate_from acc l) = List.length l.
Proof.
  revert acc; induction l as [|w l IH]; intros acc; simpl; [|rewrite IH];
    reflexivity.
Qed.

Lemma accumulate_length (l : list Q) :
  List.length (accumulate l) = List.length l.
Proof.
  destruct l as [|w l]; simpl; [|rewrite accumulate_from_length]; reflexivity.
Qed.

Lemma accumulate_from_last (acc : Q) (l : list Q) :
  last (acc :: accumulate_from acc l) 0 == acc + Qsum l.
Proof.
  revert acc; induction l as [|w l IH]; intros acc.
  - simpl. lra.
  - cbn [accumulate_from]. rewrite Qsum_cons.
    change (last (acc :: (acc + w) :: accumulate_from (acc + w) l) 0)
      with (last ((acc + w) :: accumulate_from (acc + w) l) 0).
    rewrite IH. lra.
Qed.

Lemma accumulate_last (l : list Q) : last (accumulate l) 0 == Qsum l.
Proof.
  destruct l as [|w l]; [reflexivity|].
  cbn [accumulate]. rewrite accumulate_from_last, Qsum_cons. reflexivity.
Qed.

Lemma bisect_loop_bounds (a : list Q) (x : Q) (steps : nat) :
  forall lo hi, (lo <= hi)%nat ->
  (lo <= bisect_loop steps a x lo hi <= hi)%nat.
Proof.
  induction steps as [|steps IH]; intros lo hi Hle; cbn [bisect_loop]; [lia|].
  destruct (Nat.ltb_spec lo hi) as [Hlt|Hge]; [|lia].
  assert (Hmid : (lo <= (lo + hi) / 2 < hi)%nat).
  { split.
    - apply Nat.div_le_lower_bound; lia.
    - apply Nat.Div0.div_lt_upper_bound; lia. }
  destruct (Qltb x (nth ((lo + hi) / 2) a 0)).
  - destruct (IH lo ((lo + hi) / 2)%nat); lia.
  - destruct (IH ((lo + hi) / 2 + 1)%nat hi); lia.
Qed.

Lemma random_choices_Ok {A : Type} (raw : N) (population : list A)
  (weights : list Q) :
  population <> [] ->
  List.length weights = List.length population ->
  0 < Qsum weights ->
  exists a, random_choices raw population weights = Ok a /\ In a population.
Proof.
  intros Hne Hlen Hpos. unfold random_choices.
  rewrite accumulate_length, Hlen, Nat.eqb_refl. cbn [negb].
  destruct (accumulate weights) as [|c cs] eqn:Hacc.
  - exfalso. apply (f_equal (@List.length Q)) in Hacc.
    rewrite accumulate_length, Hlen in Hacc.
    destruct population; [congruence | discriminate].
  - rewrite <- Hacc.
    destruct (Qle_bool (last (accumulate weights) 0) 0) eqn:E.
    + apply Qle_bool_iff in E. rewrite accumulate_last in E. lra.
    + match goal with |- context [nth_error population ?i] =>
        destruct (nth_error population i) as [a|] eqn:Hn;
        [| apply nth_error_None in Hn;
           pose proof (bisect_loop_bounds (accumulate weights)
                         (random_unit raw * last (accumulate weights) 0)
                         (List.length population - 1 - 0)
                         0 (List.length population - 1) ltac:(lia)) as Hb;
           unfold bisect in Hn;
           destruct population; [congruence | simpl in *; lia] ]
      end.
      exists a. split; [reflexivity|]. eapply nth_error_In; eauto.
Qed.

(** ** sample_pagerank *)

Lemma for_each_keys {A V : Type} (body : dict V -> A -> outcome (dict V))
  (l : list A) :
  (forall s a s', body s a = Ok s' -> dict_keys s' = dict_keys s) ->
  forall s s', for_each l body s = Ok s' -> dict_keys s' = dict_keys s.
Proof.
  intros Hbody. induction l as [|a l IH]; intros s s' H.
  - injection H as <-. reflexivity.
  - cbn [for_each] in H. apply bind_Ok in H. destruct H as (s1 & H1 & H).
    rewrite (IH _ _ H). eapply Hbody; eauto.
Qed.

Lemma add_all_keys (acc new r : dist) :
  add_all acc new = Ok r -> dict_keys r = dict_keys acc.
Proof.
  apply for_each_keys. intros s a s' H.
  apply bind_Ok in H. destruct H as (old & Hold & H).
  apply bind_Ok in H. destruct H as (v & _ & [= <-]).
  apply dict_set_keys. now apply dict_get_key in Hold.
Qed.

Lemma divide_all_keys_Ok (x r : dist) (c : Q) :
  divide_all x c = Ok r -> dict_keys r = dict_keys x.
Proof.
  apply for_each_keys. intros s a s' H.
  apply bind_Ok in H. destruct H as (old & Hold & H).
  apply bind_Ok in H. destruct H as (v & _ & [= <-]).
  apply dict_set_keys. now apply dict_get_key in Hold.
Qed.

Lemma sample_loop_keys (gen : random_source) (corpus : graph) (d : Q)
  (count : nat) :
  forall i acc r,
  sample_loop gen corpus d count i acc = Ok r -> dict_keys r = dict_keys acc.
Proof.
  induction count as [|count IH]; intros i acc r H.
  - injection H as <-. reflexivity.
  - cbn [sample_loop] in H.
    apply bind_Ok in H. destruct H as (p & _ & H).
    apply bind_Ok in H. destruct H as (new & _ & H).
    apply bind_Ok in H. destruct H as (acc' & Hadd & H).
    rewrite (IH _ _ _ H). now apply add_all_keys in Hadd.
Qed.

Lemma sample_pagerank_keys (gen : random_source) (corpus : graph) (d : Q)
  (n : Z) (r : dist) :
  NoDup (dict_keys corpus) ->
  sample_pagerank gen corpus d n = Ok r -> dict_keys r = dict_keys corpus.
Proof.
  intros Hnd H. unfold sample_pagerank in H.
  rewrite initial_probabilities in H by exact Hnd.
  apply bind_Ok in H. destruct H as (acc & Hloop & H).
  apply bind_Ok in H. destruct H as (acc' & Hdiv & H).
  apply divide_all_keys_Ok in H. apply divide_all_keys_Ok in Hdiv.
  apply sample_loop_keys in Hloop.
  rewrite H, Hdiv, Hloop. apply dict_keys_map.
Qed.

Lemma rank_values (x : dist) :
  NoDup (dict_keys x) -> map (rank x) (dict_keys x) = dict_values x.
Proof.
  intros Hnd. unfold dict_keys, dict_values. rewrite map_map.
  apply map_ext_in. intros [k v] Hin. cbn [fst snd].
  apply rank_get. now apply dict_get_entry.
Qed.

Lemma add_all_Ok (acc new : dist) :
  NoDup (dict_keys acc) -> dict_keys new = dict_keys acc ->
  add_all acc new = Ok (spec_add acc new).
Proof.
  intros Hnd Hkeys. unfold add_all. rewrite Hkeys.
  apply (for_each_update (fun k old => old + rank new k) _ [] acc Hnd).
  intros s k old Hk Hget. rewrite Hget. cbn [bind].
  destruct (dict_get_present new k) as [v Hv]; [now rewrite Hkeys|].
  rewrite Hv. cbn [bind]. now rewrite (rank_get _ _ _ Hv).
Qed.

Lemma spec_add_keys (acc new : dist) : dict_keys (spec_add acc new) = dict_keys acc.
Proof.
  unfold spec_add, dict_keys. rewrite map_map. reflexivity.
Qed.

Lemma Qsum_map_plus {A : Type} (f g : A -> Q) (l : list A) :
  Qsum (map (fun a => f a + g a) l) == Qsum (map f l) + Qsum (map g l).
Proof.
  induction l as [|a l IH].
  - simpl. lra.
  - rewrite !map_cons, !Qsum_cons, IH. lra.
Qed.

Lemma spec_add_sum (acc new : dist) :
  NoDup (dict_keys new) -> dict_keys new = dict_keys acc ->
  Qsum (dict_values (spec_add acc new)) ==
  Qsum (dict_values acc) + Qsum (dict_values new).
Proof.
  intros Hnd Hkeys. unfold spec_add, dict_values at 1. rewrite map_map.
  cbn [snd]. rewrite (Qsum_map_plus snd (fun e => rank new (fst e)) acc).
  rewrite <- (rank_values new Hnd), Hkeys. unfold dict_keys.
  rewrite map_map. reflexivity.
Qed.

Lemma spec_scale_keys (x : dist) (c : Q) : dict_keys (spec_scale x c) = dict_keys x.
Proof.
  apply divide_all_keys.
Qed.

Section Sampling.
Variable gen : random_source.
Variable corpus : graph.
Variable d : Q.
Hypothesis corpus_wf : well_formed corpus.
Hypothesis corpus_closed : closed corpus.
Hypothesis corpus_nonempty : corpus <> [].

Lemma keys_nonempty : dict_keys corpus <> [].
Proof.
  destruct corpus; [congruence | discriminate].
Qed.

Lemma draw_Ok (i : nat) (acc : dist) :
  accumulator_ok corpus i acc -> exists p, draw gen i acc = Ok p /\ In p (dict_keys corpus).
Proof.
  intros [Hkeys Hsum]. unfold draw. rewrite Hkeys.
  destruct i as [|i]; cbn [Nat.eqb].
  - apply random_choice_Ok, keys_nonempty.
  - apply random_choices_Ok.
    + apply keys_nonempty.
    + rewrite <- Hkeys. unfold dict_keys, dict_values.
      now rewrite !length_map.
    + rewrite Hsum. apply Q_of_nat_S_pos.
Qed.

Lemma transition_model_step (p : Page) :
  In p (dict_keys corpus) ->
  exists t,
    transition_model corpus p d = Ok t /\
    dict_keys t = dict_keys corpus /\
    Qsum (dict_values t) == 1.
Proof.
  intros Hp. destruct (dict_get_present _ _ Hp) as [links Hget].
  destruct (valid_links _ _ _ corpus_wf corpus_closed Hget) as [Hl Hincl].
  eexists. split; [apply (transition_model_eq _ _ _ _ (proj1 corpus_wf) Hget)|].
  split; [apply dict_keys_map|].
  rewrite dict_values_map. apply spec_transition_sum; auto.
  apply corpus_wf.
Qed.

(** The loop of the code, which draws before it adds, against the walk
    of the specification, which draws after it has added. *)
Lemma sample_loop_walk (count : nat) :
  forall i acc tracked,
  accumulator_ok corpus i acc -> draw gen i acc = Ok tracked ->
  In tracked (dict_keys corpus) ->
  sample_loop gen corpus d count i acc =
  spec_walk gen corpus d count i tracked acc /\
  exists acc', sample_loop gen corpus d count i acc = Ok acc' /\
               accumulator_ok corpus (i + count) acc'.
Proof.
  induction count as [|count IH]; intros i acc tracked Hok Hdraw Htracked.
  - split; [reflexivity|]. exists acc. split; [reflexivity|].
    now rewrite Nat.add_0_r.
  - cbn [sample_loop spec_walk]. fold (draw gen i acc). rewrite Hdraw.
    cbn [bind].
    destruct (transition_model_step tracked Htracked) as (t & Ht & Hkt & Hst).
    rewrite Ht. cbn [bind]. destruct Hok as [Hkeys Hsum].
    assert (Hnd : NoDup (dict_keys acc))
      by (rewrite Hkeys; apply corpus_wf).
    rewrite add_all_Ok by congruence. cbn [bind].
    assert (Hok' : accumulator_ok corpus (S i) (spec_add acc t)).
    { split; [now rewrite spec_add_keys|].
      rewrite spec_add_sum, Hsum, Hst, Q_of_nat_succ by congruence.
      reflexivity. }
    destruct (draw_Ok (S i) _ Hok') as (next & Hnext & Hin).
    pose proof Hnext as Hnext'. unfold draw in Hnext'.
    cbn [Nat.eqb] in Hnext'. rewrite Hnext'. cbn [bind].
    destruct (IH (S i) _ next Hok' Hnext Hin) as (Heq & acc' & Hrun & Hacc').
    split; [exact Heq|]. exists acc'. split; [exact Hrun|].
    now rewrite <- Nat.add_succ_comm.
Qed.

(** For a positive number of samples the code returns what the
    specification describes: a distribution over the corpus that sums
    to 1. *)
Lemma sample_pagerank_result (n : Z) :
  (0 < n)%Z ->
  sample_pagerank gen corpus d n = spec_sample gen corpus d n /\
  exists r,
    sample_pagerank gen corpus d n = Ok r /\
    dict_keys r = dict_keys corpus /\
    py_sum (dict_values r) == 1.
Proof.
  intros Hn. unfold sample_pagerank, spec_sample.
  rewrite initial_probabilities by apply corpus_wf.
  fold (spec_accumulator corpus).
  assert (Hok : accumulator_ok corpus 0 (spec_accumulator corpus)).
  { split; [apply dict_keys_map|].
    unfold spec_accumulator. rewrite dict_values_map, Qsum_const. 
    change (Q_of_nat 0) with 0. lra. }
  destruct (draw_Ok 0 _ Hok) as (first & Hfirst & Hin).
  pose proof Hfirst as Hfirst'. unfold draw in Hfirst'.
  cbn [Nat.eqb] in Hfirst'. unfold spec_accumulator in Hfirst'.
  rewrite dict_keys_map in Hfirst'. rewrite Hfirst'. cbn [bind].
  destruct (sample_loop_walk (Z.to_nat n) 0 _ first Hok Hfirst Hin)
    as (Heq & acc & Hrun & Hkeys & Hsum).
  rewrite <- Heq, Hrun. cbn [bind].
  assert (Hnd : NoDup (dict_keys acc)) by (rewrite Hkeys; apply corpus_wf).
  assert (HnQ : 0 < inject_Z n).
  { change 0 with (inject_Z 0). now rewrite <- Zlt_Qlt. }
  rewrite divide_all_Ok by (auto; lra). cbn [bind].
  fold (spec_scale acc (inject_Z n)).
  assert (Hne : spec_scale acc (inject_Z n) <> []).
  { intros E. apply (f_equal (@dict_keys Q)) in E.
    rewrite spec_scale_keys, Hkeys in E. now apply keys_nonempty. }
  assert (Hnd' : NoDup (dict_keys (spec_scale acc (inject_Z n))))
    by now rewrite spec_scale_keys.
  assert (Htot : py_sum (dict_values (spec_scale acc (inject_Z n))) == 1).
  { rewrite py_sum_Qsum. unfold spec_scale.
    rewrite divide_all_sum by lra. rewrite Hsum.
    unfold Q_of_nat. rewrite Nat.add_0_l, Z2Nat.id by lia.
    field. lra. }
  assert (Hdiv := divide_all_Ok (spec_scale acc (inject_Z n))
                    (py_sum (dict_values (spec_scale acc (inject_Z n))))
                    Hnd' ltac:(rewrite Htot; discriminate)).
  rewrite Hdiv. split; [reflexivity|].
  eexists. split; [reflexivity|].
  destruct (normalize_sum _ _ Hnd' Hne Hdiv) as [Hk Hs].
  split; [|exact Hs].
  now rewrite Hk, spec_scale_keys.
Qed.
End Sampling.

(** ** Checking the invariants *)

Lemma distinct_NoDup (l : list Page) : distinct l = true -> NoDup l.
Proof.
  induction l as [|a l IH]; simpl; intros H; constructor.
  - apply andb_prop in H. destruct H as [H _].
    apply negb_true_iff in H. intros Hin. apply set_mem_In in Hin. congruence.
  - apply IH. now apply andb_prop in H.
Qed.

Lemma valid_graphb_valid (corpus : graph) :
  valid_graphb corpus = true -> valid_graph corpus.
Proof.
  unfold valid_graphb. intros H. apply andb_prop in H. destruct H as [Hk H].
  rewrite forallb_forall in H.
  assert (He : forall e, In e corpus ->
             NoDup (snd e) /\ incl (snd e) (dict_keys corpus) /\
             ~ In (fst e) (snd e)).
  { intros e Hin. specialize (H e Hin).
    apply andb_prop in H. destruct H as [H Hself].
    apply andb_prop in H. destruct H as [Hd Hc].
    split; [now apply distinct_NoDup|]. split.
    - rewrite forallb_forall in Hc. intros t Ht. apply set_mem_In. auto.
    - apply negb_true_iff in Hself. intros Hin'.
      apply set_mem_In in Hin'. congruence. }
  split; [split|split].
  - now apply distinct_NoDup.
  - apply Forall_forall. intros e Hin. apply (He e Hin).
  - apply Forall_forall. intros e Hin. apply (He e Hin).
  - apply Forall_forall. intros e Hin. apply (He e Hin).
Qed.

(** ** The claims *)

Open Scope string_scope.

(** *** transition_model *)

Lemma transition_model_formula_witness :
  exists r,
    transition_model dead_end "A" (85 # 100) = Ok r /\
    dict_keys r = dict_keys dead_end /\
    forall p, In p (dict_keys dead_end) ->
      dict_get r p =
      Ok (if set_mem p ["D"]
          then (1 - (85 # 100)) / len dead_end + (85 # 100) / len ["D"]
          else (1 - (85 # 100)) / len dead_end).
Proof.
  apply (transition_model_formula dead_end "A" (85 # 100) ["D"]).
  - apply distinct_NoDup. reflexivity.
  - reflexivity.
Defined.

Lemma transition_model_invalid_witness :
  transition_model cycle3 "Z" (85 # 100) = Raise KeyError /\
  transition_model [] "A" (85 # 100) = Raise KeyError.
Proof.
  split.
  - apply transition_model_invalid. left. simpl. intuition discriminate.
  - apply transition_model_invalid. right. reflexivity.
Defined.

(** C5 as stated fails at damping factor 1: from A in the corpus A <-> B,
    the page A itself gets probability 0. *)
Lemma transition_model_not_positive :
  valid_graph two_cycle /\ In "A" (dict_keys two_cycle) /\ 0 <= 1 <= 1 /\
  exists r v,
    transition_model two_cycle "A" 1 = Ok r /\
    dict_get r "A" = Ok v /\ ~ 0 < v.
Proof.
  split; [apply valid_graphb_valid; reflexivity|].
  split; [now left|]. split; [split; discriminate|].
  eexists. eexists. split; [reflexivity|]. split; [reflexivity|].
  discriminate.
Qed.

Lemma transition_model_distribution_witness :
  exists r,
    transition_model two_cycle "A" (85 # 100) = Ok r /\
    dict_keys r = dict_keys two_cycle /\
    py_sum (dict_values r) == 1 /\
    (forall p v, In (p, v) r -> 0 <= v) /\
    (85 # 100 < 1 -> forall p v, In (p, v) r -> 0 < v).
Proof.
  apply (transition_model_distribution two_cycle "A" (85 # 100)).
  - apply valid_graphb_valid. reflexivity.
  - now left.
  - split; discriminate.
Defined.

(** *** iterate_pagerank *)

(** C1 fails on the code, on the corpus A -> B, B <-> C at damping 0.85.
    The first pass recomputes the three pages and none converges.  In the
    second pass A converges and is removed from the list under the
    iterator, so that B, still active, is not recomputed: C is then
    recomputed from the rank that B already had, does not move, and is
    frozen.  A pass over all the active pages recomputes B and leaves C
    active. *)
Theorem pass_skips_active_page :
  let d := 85 # 100 in
  let x0 := map (fun k => (k, 1 / len chain)) (dict_keys chain) in
  exists x1 x2,
    pass chain d ["A"; "B"; "C"] x0 = Ok (["A"; "B"; "C"], x1) /\
    pass chain d ["A"; "B"; "C"] x1 = Ok (["B"], x2) /\
    dict_get x2 "B" = dict_get x1 "B" /\
    Qltb (Qabs (newRank chain d (dict_set x1 "A" (newRank chain d x1 "A")) "B"
                - rank x1 "B")) threshold = false /\
    fst (spec_pass chain d ["A"; "B"; "C"] ["A"; "B"; "C"] x1) = ["B"; "C"].
Proof.
  intros d x0.
  assert (E1 : pass chain d ["A"; "B"; "C"] x0 = Ok (["A"; "B"; "C"], _))
    by (vm_compute; reflexivity).
  eexists. eexists. split; [exact E1|].
  split; [vm_compute; reflexivity|].
  split; [vm_compute; reflexivity|].
  split; vm_compute; reflexivity.
Qed.




(** *** sample_pagerank *)

(** C3: for a valid, non-empty corpus and a positive number of samples,
    [sample_pagerank] returns what the steps of the specification give:
    an accumulator of zeros, a first page drawn uniformly among all
    pages, then as many times as there are samples the whole transition
    distribution of the tracked page added into the accumulator and the
    next page drawn with the accumulator's current values as weights, and
    at the end a division by the number of samples and a
    renormalisation. *)
Theorem sample_pagerank_follows_spec (gen : random_source) (corpus : graph)
  (d : Q) (n : Z) :
  valid_graph corpus -> corpus <> [] -> (0 < n)%Z ->
  sample_pagerank gen corpus d n = spec_sample gen corpus d n /\
  exists r, sample_pagerank gen corpus d n = Ok r.
Proof.
  intros (Hwf & Hcl & _) Hne Hn.
  destruct (sample_pagerank_result gen corpus d Hwf Hcl Hne n Hn)
    as (Heq & r & Hr & _).
  split; [exact Heq | now exists r].
Qed.

Lemma sample_pagerank_follows_spec_witness :
  sample_pagerank (fun i => N.of_nat (5 * i + 1)) skewed (85 # 100) 3 =
  spec_sample (fun i => N.of_nat (5 * i + 1)) skewed (85 # 100) 3 /\
  exists r,
    sample_pagerank (fun i => N.of_nat (5 * i + 1)) skewed (85 # 100) 3 = Ok r.
Proof.
  apply sample_pagerank_follows_spec.
  - apply valid_graphb_valid. reflexivity.
  - discriminate.
  - reflexivity.
Defined.

(** C9 as stated fails on the empty corpus with no sample to draw:
    [sample_pagerank] raises nothing and returns the empty mapping. *)
Lemma sample_pagerank_empty_returns :
  ((0 <= 0)%Z \/ ([] : graph) = []) /\
  sample_pagerank (fun _ => 0%N) [] (85 # 100) 0 = Ok [] /\
  ~ exists e, sample_pagerank (fun _ => 0%N) [] (85 # 100) 0 = Raise e.
Proof.
  split; [now right|]. split; [reflexivity|].
  intros [e He]. discriminate He.
Qed.

Lemma zero_accumulator_sum (corpus : graph) (c : Q) :
  ~ c == 0 ->
  py_sum (dict_values (spec_scale (spec_accumulator corpus) c)) == 0.
Proof.
  intros Hc. rewrite py_sum_Qsum. unfold spec_scale.
  rewrite divide_all_sum by exact Hc.
  unfold spec_accumulator. rewrite dict_values_map, Qsum_const.
  field. exact Hc.
Qed.

(** C9, amended: [sample_pagerank] raises when the corpus has pages and
    the number of samples is not positive (a division by zero) and when
    the corpus is empty and the number of samples is positive (a choice
    from an empty sequence); on the empty corpus with a number of samples
    that is not positive it returns the empty mapping. *)
Theorem sample_pagerank_invalid (gen : random_source) (corpus : graph)
  (d : Q) (n : Z) :
  NoDup (dict_keys corpus) ->
  (corpus <> [] -> (n <= 0)%Z ->
   sample_pagerank gen corpus d n = Raise ZeroDivisionError) /\
  (corpus = [] -> (0 < n)%Z ->
   sample_pagerank gen corpus d n = Raise IndexError) /\
  (corpus = [] -> (n <= 0)%Z ->
   sample_pagerank gen corpus d n = Ok []).
Proof.
  intros Hnd. split; [|split].
  - intros Hne Hn. unfold sample_pagerank.
    rewrite initial_probabilities by exact Hnd.
    fold (spec_accumulator corpus).
    replace (Z.to_nat n) with O by lia. cbn [sample_loop bind].
    assert (Hacc : spec_accumulator corpus <> []).
    { destruct corpus; [congruence | discriminate]. }
    assert (Hk : NoDup (dict_keys (spec_accumulator corpus))).
    { unfold spec_accumulator. now rewrite dict_keys_map. }
    destruct (Z.eq_dec n 0) as [->|Hnz].
    + now rewrite divide_all_zero.
    + assert (HnQ : ~ inject_Z n == 0).
      { change 0 with (inject_Z 0). rewrite inject_Z_injective. exact Hnz. }
      rewrite divide_all_Ok by assumption. cbn [bind].
      fold (spec_scale (spec_accumulator corpus) (inject_Z n)).
      apply divide_all_zero.
      * intros E. apply Hacc. unfold spec_scale in E.
        now apply map_eq_nil in E.
      * now apply zero_accumulator_sum.
  - intros -> Hn. unfold sample_pagerank.
    destruct (Z.to_nat n) as [|c] eqn:E; [lia | reflexivity].
  - intros -> Hn. unfold sample_pagerank.
    replace (Z.to_nat n) with O by lia. reflexivity.
Qed.

Lemma sample_pagerank_invalid_witness :
  sample_pagerank (fun _ => 0%N) cycle3 (85 # 100) (-2) =
    Raise ZeroDivisionError /\
  sample_pagerank (fun _ => 0%N) [] (85 # 100) 2 = Raise IndexError /\
  sample_pagerank (fun _ => 0%N) [] (85 # 100) 0 = Ok [].
Proof.
  split; [|split].
  - apply (sample_pagerank_invalid (fun _ => 0%N) cycle3 (85 # 100) (-2)).
    + apply distinct_NoDup. reflexivity.
    + discriminate.
    + discriminate.
  - apply (sample_pagerank_invalid (fun _ => 0%N) [] (85 # 100) 2).
    + constructor.
    + reflexivity.
    + reflexivity.
  - apply (sample_pagerank_invalid (fun _ => 0%N) [] (85 # 100) 0).
    + constructor.
    + reflexivity.
    + discriminate.
Defined.

(** *** Both estimators *)

(** C4: for a valid, non-empty corpus, [sample_pagerank] with a positive
    number of samples returns, for every damping factor and every
    sequence of draws, a distribution whose sum is 1, and every
    distribution that [iterate_pagerank] returns has sum 1.  Ranks are
    exact rationals here, so that the sums are exactly 1. *)
Theorem rank_distributions_sum_to_one (corpus : graph) (d : Q) :
  valid_graph corpus -> corpus <> [] ->
  (forall gen n, (0 < n)%Z ->
     exists r, sample_pagerank gen corpus d n = Ok r /\
               py_sum (dict_values r) == 1) /\
  (forall fuel r, iterate_pagerank fuel corpus d = Some (Ok r) ->
     py_sum (dict_values r) == 1).
Proof.
  intros (Hwf & Hcl & _) Hne. split.
  - intros gen n Hn.
    destruct (sample_pagerank_result gen corpus d Hwf Hcl Hne n Hn)
      as (_ & r & Hr & _ & Hs).
    exists r. split; assumption.
  - intros fuel r Hr.
    apply (iterate_pagerank_returned corpus d fuel r (proj1 Hwf) Hr).
Qed.

Lemma rank_distributions_sum_to_one_witness :
  (forall gen n, (0 < n)%Z ->
     exists r, sample_pagerank gen skewed (85 # 100) n = Ok r /\
               py_sum (dict_values r) == 1) /\
  exists r, iterate_pagerank 3 skewed (85 # 100) = Some (Ok r) /\
            py_sum (dict_values r) == 1.
Proof.
  destruct (rank_distributions_sum_to_one skewed (85 # 100)) as [Hs Hi].
  - apply valid_graphb_valid. reflexivity.
  - discriminate.
  - split; [exact Hs|].
    assert (E : iterate_pagerank 3 skewed (85 # 100) = Some (Ok _))
      by (vm_compute; reflexivity).
    eexists. split; [exact E | exact (Hi _ _ E)].
Defined.

(** C10: for a non-empty corpus, every mapping returned by
    [transition_model], [sample_pagerank] or [iterate_pagerank] has
    exactly the keys of the corpus, in the order of the corpus. *)
Theorem result_keys (corpus : graph) :
  NoDup (dict_keys corpus) -> corpus <> [] ->
  (forall page d r,
     transition_model corpus page d = Ok r ->
     dict_keys r = dict_keys corpus) /\
  (forall gen d n r,
     sample_pagerank gen corpus d n = Ok r ->
     dict_keys r = dict_keys corpus) /\
  (forall fuel d r,
     iterate_pagerank fuel corpus d = Some (Ok r) ->
     dict_keys r = dict_keys corpus).
Proof.
  intros Hnd _. split; [|split].
  - intros page d r H.
    destruct (dict_get corpus page) as [links|e] eqn:Hget.
    + rewrite (transition_model_eq _ _ _ _ Hnd Hget) in H.
      injection H as <-. apply dict_keys_map.
    + unfold transition_model in H. rewrite Hget in H. discriminate.
  - intros gen d n r H. now apply sample_pagerank_keys in H.
  - intros fuel d r H. now apply iterate_pagerank_returned in H.
Qed.

Lemma result_keys_witness :
  exists r1 r2 r3,
    transition_model skewed "C" (85 # 100) = Ok r1 /\
    sample_pagerank (fun i => N.of_nat i) skewed (85 # 100) 2 = Ok r2 /\
    iterate_pagerank 3 skewed (85 # 100) = Some (Ok r3) /\
    dict_keys r1 = ["A"; "B"; "C"] /\
    dict_keys r2 = ["A"; "B"; "C"] /\
    dict_keys r3 = ["A"; "B"; "C"].
Proof.
  destruct (result_keys skewed) as (H1 & H2 & H3).
  - apply distinct_NoDup. reflexivity.
  - discriminate.
  - eexists. eexists. eexists.
    assert (E1 : transition_model skewed "C" (85 # 100) = Ok _)
      by (vm_compute; reflexivity).
    assert (E2 : sample_pagerank (fun i => N.of_nat i) skewed (85 # 100) 2
                 = Ok _) by (vm_compute; reflexivity).
    assert (E3 : iterate_pagerank 3 skewed (85 # 100) = Some (Ok _))
      by (vm_compute; reflexivity).
    split; [exact E1|]. split; [exact E2|]. split; [exact E3|].
    split; [exact (H1 _ _ _ E1)|].
    split; [exact (H2 _ _ _ _ E2) | exact (H3 _ _ _ E3)].
Defined.

Close Scope string_scope.

(** * Beyond the claims *)

(** ** crawl *)

Section DictSet.
Context {V : Type}.
Implicit Types (d : dict V) (k : Page) (v : V).

Lemma dict_set_keys_In d k v k' :
  In k' (dict_keys (dict_set d k v)) <-> k' = k \/ In k' (dict_keys d).
Proof.
  induction d as [|[k0 v0] d IH]; simpl.
  - intuition.
  - destruct (String.eqb_spec k k0) as [->|Hne]; simpl.
    + intuition.
    + rewrite IH. intuition.
Qed.

Lemma dict_set_NoDup d k v :
  NoDup (dict_keys d) -> NoDup (dict_keys (dict_set d k v)).
Proof.
  induction d as [|[k0 v0] d IH]; simpl; intros H.
  - constructor; [intros [] | constructor].
  - inversion H as [|? ? Hk0 Hd]; subst.
    destruct (String.eqb_spec k k0) as [->|Hne]; simpl.
    + constructor; assumption.
    + constructor; [|auto].
      fold (dict_keys (dict_set d k v)). rewrite dict_set_keys_In.
      intros [E|Hin]; [congruence | contradiction].
Qed.

Lemma dict_set_In d k v e :
  In e (dict_set d k v) -> e = (k, v) \/ In e d.
Proof.
  induction d as [|[k0 v0] d IH]; simpl.
  - intuition.
  - destruct (String.eqb_spec k k0) as [->|Hne]; simpl.
    + intros [<-|H]; auto.
    + intros [<-|H]; auto. destruct (IH H); auto.
Qed.

(** [for k in d: d[k] = h(k, d[k])] where the body may look at the keys
    of [d], which it never changes. *)
Lemma for_each_update_keys (h : Page -> V -> V)
  (body : dict V -> Page -> outcome (dict V)) (keys : list Page)
  (done todo : dict V) :
  dict_keys (done ++ todo) = keys ->
  NoDup keys ->
  (forall acc k old, dict_keys acc = keys -> In k (dict_keys todo) ->
                     dict_get acc k = Ok old ->
                     body acc k = Ok (dict_set acc k (h k old))) ->
  for_each (dict_keys todo) body (done ++ todo) =
  Ok (done ++ map (fun e => (fst e, h (fst e) (snd e))) todo).
Proof.
  revert done. induction todo as [|[k v] todo IH]; intros done Hkeys Hnd Hbody.
  - reflexivity.
  - assert (Hk : ~ In k (dict_keys done)).
    { rewrite <- Hkeys, dict_keys_app in Hnd. cbn [dict_keys map fst] in Hnd.
      pose proof (NoDup_remove_2 _ _ _ Hnd) as H.
      rewrite in_app_iff in H. tauto. }
    cbn [dict_keys map fst for_each].
    rewrite (Hbody _ k v Hkeys); [|now left|].
    2:{ rewrite dict_get_app_r by exact Hk. simpl.
        now rewrite String.eqb_refl. }
    cbn [bind]. rewrite dict_set_app_r by exact Hk.
    cbn [dict_set]. rewrite String.eqb_refl.
    change (done ++ (k, h k v) :: todo) with (done ++ [(k, h k v)] ++ todo).
    rewrite app_assoc. fold (dict_keys todo).
    rewrite IH.
    + rewrite <- app_assoc. reflexivity.
    + rewrite <- Hkeys, <- app_assoc, !dict_keys_app. reflexivity.
    + exact Hnd.
    + intros acc k' old Ha Hk' Hget. apply Hbody; [exact Ha | now right | exact Hget].
Qed.
End DictSet.

Lemma remove_NoDup (x : Page) (l : list Page) :
  NoDup l -> NoDup (remove string_dec x l).
Proof.
  induction 1 as [|a l Ha Hl IH]; simpl; [constructor|].
  destruct (string_dec x a); [exact IH|].
  constructor; [|exact IH].
  intros Hin. apply in_remove in Hin. tauto.
Qed.

Section Crawl.
Variable findall : string -> list Page.

Lemma scan_keys (directory : list (string * string)) :
  forall (acc : graph) (k : Page),
  In k (dict_keys (fold_left (scan_step findall) directory acc)) <->
  In k (dict_keys acc) \/
  exists file, In file directory /\ fst file = k /\ is_page file = true.
Proof.
  induction directory as [|file directory IH]; intros acc k.
  - simpl. split; [auto | intros [H|(f & [] & _)]; exact H].
  - cbn [fold_left]. rewrite IH. unfold scan_step.
    fold (is_page file).
    destruct (is_page file) eqn:E; cbn [negb].
    + rewrite dict_set_keys_In. split.
      * intros [[->|H]|(f & Hf & Hk & Hp)]; auto.
        -- right. exists file. split; [now left | auto].
        -- right. exists f. split; [now right | auto].
      * intros [H|(f & [<-|Hf] & Hk & Hp)]; auto.
        right. exists f. auto.
    + split.
      * intros [H|(f & Hf & Hk & Hp)]; auto.
        right. exists f. split; [now right | auto].
      * intros [H|(f & [<-|Hf] & Hk & Hp)]; auto; [congruence|].
        right. exists f. auto.
Qed.

Lemma scan_entries (directory : list (string * string)) :
  forall acc : graph,
  NoDup (dict_keys acc) ->
  (forall k links, In (k, links) acc -> NoDup links /\ ~ In k links) ->
  NoDup (dict_keys (fold_left (scan_step findall) directory acc)) /\
  forall k links,
    In (k, links) (fold_left (scan_step findall) directory acc) ->
    NoDup links /\ ~ In k links.
Proof.
  induction directory as [|file directory IH]; intros acc Hnd Hacc.
  - split; assumption.
  - cbn [fold_left]. apply IH.
    + unfold scan_step. destruct (negb _); [exact Hnd|].
      now apply dict_set_NoDup.
    + intros k links Hin. unfold scan_step in Hin.
      destruct (negb _); [now apply Hacc|].
      apply dict_set_In in Hin. destruct Hin as [[= -> ->]|Hin];
        [|now apply Hacc].
      split; [|apply remove_In].
      apply remove_NoDup, NoDup_nodup.
Qed.
End Crawl.

Section CrawlResult.
Variable findall : string -> list Page.

(** The second loop of [crawl] keeps, in every set, the links that are
    pages. *)
Lemma crawl_filter (pages : graph) :
  NoDup (dict_keys pages) ->
  for_each (dict_keys pages)
    (fun pages filename =>
       links <- dict_get pages filename ;;
       Ok (dict_set pages filename
             (filter (fun link => set_mem link (dict_keys pages)) links)))
    pages =
  Ok (map (fun e => (fst e,
                     filter (fun link => set_mem link (dict_keys pages))
                       (snd e))) pages).
Proof.
  intros Hnd.
  apply (for_each_update_keys
           (fun _ links =>
              filter (fun link => set_mem link (dict_keys pages)) links)
           _ (dict_keys pages) [] pages eq_refl Hnd).
  intros acc k old Hacc _ Hget. rewrite Hget. cbn [bind]. now rewrite Hacc.
Qed.

Lemma crawl_result_keys (pages : graph) (f : Page -> list Page -> list Page) :
  dict_keys (map (fun e => (fst e, f (fst e) (snd e))) pages) = dict_keys pages.
Proof.
  unfold dict_keys. rewrite map_map. reflexivity.
Qed.

(** Without a name listed twice the first loop keeps the pages in the
    order of the listing. *)
Lemma scan_closed (directory : list (string * string)) :
  NoDup (map fst directory) ->
  forall acc : graph,
  (forall file, In file directory -> ~ In (fst file) (dict_keys acc)) ->
  fold_left (scan_step findall) directory acc =
  acc ++ map (scanned findall) (filter is_page directory).
Proof.
  induction directory as [|file directory IH]; intros Hnd acc Hacc.
  - simpl. now rewrite app_nil_r.
  - inversion Hnd as [|? ? Hfile Hnd']; subst.
    cbn [fold_left filter]. unfold scan_step at 2. fold (is_page file).
    destruct (is_page file); cbn [negb].
    + rewrite dict_set_new by (apply Hacc; now left).
      rewrite IH; [|exact Hnd'|].
      * rewrite <- app_assoc. reflexivity.
      * intros f Hf. rewrite dict_keys_app, in_app_iff. cbn.
        intros [H|[E|[]]].
        -- apply (Hacc f); [now right | exact H].
        -- apply Hfile. rewrite E. now apply in_map.
    + apply IH; [exact Hnd'|]. intros f Hf. apply Hacc. now right.
Qed.
End CrawlResult.

Open Scope string_scope.

Section CrawlRun.
Variable findall : string -> list Page.

(** When the first loop reaches its end, it has done on the files what
    [scan_step] does on their texts. *)
Lemma scan_texts (files : list (string * answer string)) :
  forall acc pages,
  scan findall files acc = Answer pages ->
  pages = fold_left (scan_step findall) (texts files) acc.
Proof.
  induction files as [|[name opened] files IH]; intros acc pages H.
  - injection H as <-. reflexivity.
  - cbn [scan] in H. cbn [texts map fold_left fst snd].
    fold (texts files). unfold scan_step at 2. cbn [fst snd].
    destruct (endswith name ".html"); cbn [negb] in *.
    + destruct opened as [contents|e]; [|discriminate]. now apply IH.
    + now apply IH.
Qed.

(** The first loop reaches its end exactly when every listed page can be
    read; otherwise it ends with what a page answered. *)
Lemma scan_Answer (files : list (string * answer string)) :
  forall acc,
  (exists pages, scan findall files acc = Answer pages) <-> readable files.
Proof.
  induction files as [|[name opened] files IH]; intros acc.
  - split; [intros _ n e [] | intros _; now exists acc].
  - cbn [scan]. destruct (endswith name ".html") eqn:E; cbn [negb].
    + destruct opened as [contents|e].
      * rewrite IH. split.
        -- intros H n e [E'|Hin]; [inversion E' | now apply (H n e)].
        -- intros H n e Hin. apply (H n e). now right.
      * split; [intros [pages Hp]; discriminate|].
        intros H. specialize (H name e (or_introl eq_refl)). congruence.
    + rewrite IH. split.
      * intros H n e [[= <- _]|Hin]; [exact E | now apply (H n e)].
      * intros H n e Hin. apply (H n e). now right.
Qed.

Lemma scan_Refuse (files : list (string * answer string)) :
  forall acc e,
  scan findall files acc = Refuse e ->
  exists name, In (name, Refuse e) files /\ endswith name ".html" = true.
Proof.
  induction files as [|[name opened] files IH]; intros acc e H.
  - discriminate.
  - cbn [scan] in H. destruct (endswith name ".html") eqn:E; cbn [negb] in H.
    + destruct opened as [contents|e'].
      * destruct (IH _ _ H) as (n & Hin & Hn). exists n. split; [now right | exact Hn].
      * injection H as ->. exists name. split; [now left | exact E].
    + destruct (IH _ _ H) as (n & Hin & Hn). exists n. split; [now right | exact Hn].
Qed.

(** The second loop never raises: it looks up the keys it iterates
    over. *)
Lemma crawl_Pages (files : list (string * answer string)) (pages : graph) :
  scan findall files [] = Answer pages ->
  crawl findall (Answer files) =
  Pages (map (fun e => (fst e,
                        filter (fun link => set_mem link (dict_keys pages))
                          (snd e))) pages).
Proof.
  intros Hscan. unfold crawl. rewrite Hscan.
  rewrite crawl_filter; [reflexivity|].
  rewrite (scan_texts files [] pages Hscan).
  apply (scan_entries findall (texts files) []); [constructor|].
  intros k links [].
Qed.

Lemma crawl_inv (files : list (string * answer string)) (g : graph) :
  crawl findall (Answer files) = Pages g ->
  let pages := fold_left (scan_step findall) (texts files) [] in
  scan findall files [] = Answer pages /\
  g = map (fun e => (fst e,
                     filter (fun link => set_mem link (dict_keys pages))
                       (snd e))) pages.
Proof.
  intros H pages.
  destruct (scan findall files []) as [p|e] eqn:Hscan.
  - rewrite (crawl_Pages files p Hscan) in H. injection H as <-.
    pose proof (scan_texts files [] p Hscan) as ->. split; reflexivity.
  - unfold crawl in H. rewrite Hscan in H. discriminate.
Qed.
End CrawlRun.

Lemma texts_names (files : list (string * answer string)) :
  map fst (texts files) = map fst files.
Proof.
  unfold texts. rewrite map_map. reflexivity.
Qed.

Lemma crawl_valid (findall : string -> list Page)
  (files : list (string * answer string)) (g : graph) :
  crawl findall (Answer files) = Pages g ->
  valid_graph g /\
  forall k, In k (dict_keys g) <->
            In k (map fst files) /\ endswith k ".html" = true.
Proof.
  intros H. apply crawl_inv in H. cbv zeta in H. destruct H as [_ ->].
  set (pages := fold_left (scan_step findall) (texts files) []).
  destruct (scan_entries findall (texts files) []) as [Hnd Hent];
    [constructor | intros k links [] |]. fold pages in Hnd, Hent.
  set (keep := fun link => set_mem link (dict_keys pages)).
  assert (Hkeys : dict_keys (map (fun e => (fst e, filter keep (snd e))) pages)
                  = dict_keys pages)
    by apply (crawl_result_keys pages (fun _ => filter keep)).
  split; [split; [split|split]|].
  - now rewrite Hkeys.
  - apply Forall_forall. intros e He. apply in_map_iff in He.
    destruct He as ([k links] & <- & Hin). cbn [snd fst].
    apply NoDup_filter. apply (Hent k links Hin).
  - apply Forall_forall. intros e He. apply in_map_iff in He.
    destruct He as ([k links] & <- & Hin). cbn [snd fst].
    rewrite Hkeys. intros l Hl. apply filter_In in Hl.
    destruct Hl as [_ Hl]. now apply set_mem_In.
  - apply Forall_forall. intros e He. apply in_map_iff in He.
    destruct He as ([k links] & <- & Hin). cbn [snd fst].
    intros Hl. apply filter_In in Hl. destruct Hl as [Hl _].
    now apply (Hent k links Hin).
  - intros k. rewrite Hkeys. unfold pages. rewrite scan_keys.
    rewrite <- texts_names. simpl. split.
    + intros [[]|(file & Hin & <- & Hp)]. split; [now apply in_map | exact Hp].
    + intros [Hin Hp]. right. apply in_map_iff in Hin.
      destruct Hin as (file & <- & Hin). exists file. auto.
Qed.

(** X1: every corpus that [crawl] returns meets the invariants the
    estimators rely on: no page is listed twice and no link twice, every
    link leads to a page of the corpus, and no page links to itself. *)
Theorem crawl_valid_graph (findall : string -> list Page)
  (directory : answer (list (string * answer string))) (g : graph) :
  crawl findall directory = Pages g -> valid_graph g.
Proof.
  intros H. destruct directory as [files|e]; [|discriminate].
  now apply (crawl_valid findall files g).
Qed.

Lemma crawl_site :
  crawl site_findall (Answer site) =
  Pages [("1.html", ["2.html"]); ("2.html", ["1.html"])].
Proof.
  reflexivity.
Qed.

Lemma crawl_valid_graph_witness :
  valid_graph [("1.html", ["2.html"]); ("2.html", ["1.html"])].
Proof.
  exact (crawl_valid_graph site_findall (Answer site) _ crawl_site).
Defined.

(** X2: the pages of a corpus that [crawl] returns are exactly the names
    of the listing that end with [.html]. *)
Theorem crawl_pages (findall : string -> list Page)
  (files : list (string * answer string)) (g : graph) :
  crawl findall (Answer files) = Pages g ->
  forall k, In k (dict_keys g) <->
            In k (map fst files) /\ endswith k ".html" = true.
Proof.
  intros H. now apply (crawl_valid findall files g).
Qed.

Lemma crawl_pages_witness :
  (In "2.html" ["1.html"; "2.html"] <->
   In "2.html" (map fst site) /\ endswith "2.html" ".html" = true) /\
  (In "notes.txt" ["1.html"; "2.html"] <->
   In "notes.txt" (map fst site) /\ endswith "notes.txt" ".html" = true).
Proof.
  split; apply (crawl_pages site_findall site _ crawl_site).
Defined.

Lemma filter_names (files : list (string * string)) :
  map fst (filter is_page files) =
  filter (fun k => endswith k ".html") (map fst files).
Proof.
  induction files as [|f files IH]; [reflexivity|].
  cbn [filter map]. unfold is_page at 1.
  destruct (endswith (fst f) ".html"); cbn [map]; now rewrite IH.
Qed.

(** X3: when no name is listed twice, a corpus that [crawl] returns has
    the pages in the order of the listing, and a page links to exactly
    the targets found in its file that are pages of the corpus other
    than itself. *)
Theorem crawl_links (findall : string -> list Page)
  (files : list (string * answer string)) (g : graph) :
  NoDup (map fst files) ->
  crawl findall (Answer files) = Pages g ->
  dict_keys g = filter (fun k => endswith k ".html") (map fst files) /\
  forall name contents,
    In (name, Answer contents) files -> endswith name ".html" = true ->
    exists links,
      dict_get g name = Ok links /\
      forall l, In l links <->
                In l (findall contents) /\ l <> name /\ In l (dict_keys g).
Proof.
  intros Hnd H. apply crawl_inv in H. cbv zeta in H. destruct H as [_ Hg].
  rewrite (scan_closed findall (texts files)) in Hg;
    [|now rewrite texts_names | intros ? ? []].
  cbn [app] in Hg.
  set (pages := map (scanned findall) (filter is_page (texts files))) in Hg.
  assert (Hpk : dict_keys pages =
                filter (fun k => endswith k ".html") (map fst files)).
  { unfold pages, dict_keys. rewrite map_map.
    change (map (fun x => fst (scanned findall x)) (filter is_page (texts files)))
      with (map fst (filter is_page (texts files))).
    now rewrite filter_names, texts_names. }
  set (keep := fun link => set_mem link (dict_keys pages)) in Hg.
  assert (Hkeys : dict_keys g = dict_keys pages).
  { rewrite Hg. apply (crawl_result_keys pages (fun _ => filter keep)). }
  split; [now rewrite Hkeys|].
  intros name contents Hin Hp. eexists. split.
  - apply dict_get_entry.
    + rewrite Hkeys, Hpk. now apply NoDup_filter.
    + rewrite Hg. apply in_map_iff.
      exists (scanned findall (name, contents)). split; [reflexivity|].
      apply in_map. apply filter_In. split; [|exact Hp].
      unfold texts. apply in_map_iff. exists (name, Answer contents). auto.
  - intros l. rewrite Hkeys. cbn [scanned snd fst]. rewrite filter_In.
    unfold keep. rewrite set_mem_In. split.
    + intros [Hl Hk]. apply in_remove in Hl. destruct Hl as [Hl Hne].
      apply nodup_In in Hl. auto.
    + intros (Hl & Hne & Hk). split; [|exact Hk].
      apply in_in_remove; [exact Hne|]. now apply nodup_In.
Qed.

Lemma crawl_links_witness :
  dict_keys [("1.html", ["2.html"]); ("2.html", ["1.html"])] =
  filter (fun k => endswith k ".html") (map fst site) /\
  forall name contents,
    In (name, Answer contents) site -> endswith name ".html" = true ->
    exists links,
      dict_get [("1.html", ["2.html"]); ("2.html", ["1.html"])] name
      = Ok links /\
      forall l, In l links <->
                In l (site_findall contents) /\ l <> name /\
                In l (dict_keys [("1.html", ["2.html"]); ("2.html", ["1.html"])]).
Proof.
  apply (crawl_links site_findall site).
  - apply distinct_NoDup. reflexivity.
  - exact crawl_site.
Defined.

(** X15: [crawl] returns a corpus exactly when the directory could be
    listed and every listed name that ends with [.html] could be opened
    and read; otherwise it ends with the exception of [os.listdir] or of
    such a page, names that do not end with [.html] being never opened.
    Its own lookups never raise. *)
Theorem crawl_returns_iff (findall : string -> list Page) :
  (forall e, crawl findall (Refuse e) = OsRaise e) /\
  (forall files,
     (exists g, crawl findall (Answer files) = Pages g) <-> readable files) /\
  (forall files e,
     crawl findall (Answer files) = OsRaise e ->
     exists name, In (name, Refuse e) files /\ endswith name ".html" = true) /\
  (forall directory e, crawl findall directory <> PyRaise e).
Proof.
  split; [reflexivity|]. split; [|split].
  - intros files. rewrite <- (scan_Answer findall files []). split.
    + intros [g Hg]. apply crawl_inv in Hg. cbv zeta in Hg. destruct Hg as [Hs _].
      eauto.
    + intros [pages Hp]. eexists. apply (crawl_Pages findall files pages Hp).
  - intros files e H.
    destruct (scan findall files []) as [p|e'] eqn:Hscan.
    + rewrite (crawl_Pages findall files p Hscan) in H. discriminate.
    + unfold crawl in H. rewrite Hscan in H. injection H as <-.
      now apply (scan_Refuse findall files []).
  - intros [files|e'] e; [|discriminate].
    destruct (scan findall files []) as [p|e''] eqn:Hscan.
    + rewrite (crawl_Pages findall files p Hscan). discriminate.
    + unfold crawl. rewrite Hscan. discriminate.
Qed.

(** ** iterate_pagerank: converged pages *)

Lemma for_candidates_frozen (corpus : graph) (d : Q) (steps : nat) :
  forall idx cands x cands' x',
  for_candidates steps corpus d idx cands x = Ok (cands', x') ->
  incl cands' cands /\
  forall k, ~ In k cands -> dict_get x' k = dict_get x k.
Proof.
  induction steps as [|steps IH]; intros idx cands x cands' x' H.
  - injection H as <- <-. split; [apply incl_refl | reflexivity].
  - cbn [for_candidates] in H.
    destruct (nth_error cands idx) as [p|] eqn:Hnth.
    2:{ injection H as <- <-. split; [apply incl_refl | reflexivity]. }
    assert (Hp : In p cands) by (eapply nth_error_In; eauto).
    apply bind_Ok in H. destruct H as (t & _ & H).
    apply bind_Ok in H. destruct H as (b & _ & H).
    apply bind_Ok in H. destruct H as (old & _ & H).
    apply bind_Ok in H. destruct H as (c1 & Hc1 & H).
    assert (Hincl : incl c1 cands).
    { destruct (Qltb _ _).
      - now apply list_remove_Ok in Hc1.
      - injection Hc1 as <-. apply incl_refl. }
    destruct (IH _ _ _ _ _ H) as (Hsub & Hsame).
    split; [eapply incl_tran; eauto|].
    intros k Hk. rewrite Hsame by (intros Hin; apply Hk, Hincl, Hin).
    apply dict_get_set_other. intros ->. contradiction.
Qed.

Lemma while_candidates_frozen (corpus : graph) (d : Q) (fuel : nat) :
  forall cands x r,
  while_candidates fuel corpus d cands x = Some (Ok r) ->
  forall k, ~ In k cands -> dict_get r k = dict_get x k.
Proof.
  induction fuel as [|fuel IH]; intros cands x r H k Hk.
  - destruct cands; [injection H as <-; reflexivity | discriminate].
  - destruct cands as [|a cands]; [injection H as <-; reflexivity|].
    cbn [while_candidates] in H.
    destruct (pass corpus d (a :: cands) x) as [[c' x']|e] eqn:Hpass;
      [|discriminate].
    unfold pass in Hpass. apply for_candidates_frozen in Hpass.
    destruct Hpass as (Hsub & Hsame).
    rewrite (IH _ _ _ H k) by (intros Hin; apply Hk, Hsub, Hin).
    now apply Hsame.
Qed.

(** X12: a pass never adds a page to the candidate list and never writes
    the rank of a page that is not on it; so the rank of a page that has
    left the list is the rank that the loop ends with. *)
Theorem converged_rank_is_final (corpus : graph) (d : Q) (fuel : nat)
  (cands cands' : list Page) (x x' r : dist) :
  pass corpus d cands x = Ok (cands', x') ->
  while_candidates fuel corpus d cands' x' = Some (Ok r) ->
  incl cands' cands /\
  (forall k, ~ In k cands -> dict_get x' k = dict_get x k) /\
  (forall k, ~ In k cands' -> dict_get r k = dict_get x' k).
Proof.
  intros Hpass Hrun. unfold pass in Hpass.
  apply for_candidates_frozen in Hpass. destruct Hpass as (Hsub & Hsame).
  split; [exact Hsub|]. split; [exact Hsame|].
  now apply (while_candidates_frozen corpus d fuel cands' x').
Qed.

Lemma converged_rank_is_final_witness :
  let x' := [("A", 30000 # 90000); ("B", 1 # 3); ("C", 1500 # 30000)] in
  exists r,
    pass skewed (85 # 100) ["A"; "B"; "C"]
      [("A", 1 # 3); ("B", 1 # 3); ("C", 1 # 3)] = Ok (["B"; "C"], x') /\
    while_candidates 2 skewed (85 # 100) ["B"; "C"] x' = Some (Ok r) /\
    dict_get r "A" = dict_get x' "A".
Proof.
  intros x'.
  assert (E1 : pass skewed (85 # 100) ["A"; "B"; "C"]
                 [("A", 1 # 3); ("B", 1 # 3); ("C", 1 # 3)]
               = Ok (["B"; "C"], x')) by (vm_compute; reflexivity).
  assert (E2 : while_candidates 2 skewed (85 # 100) ["B"; "C"] x'
               = Some (Ok _)) by (vm_compute; reflexivity).
  eexists. split; [exact E1|]. split; [exact E2|].
  apply (converged_rank_is_final _ _ _ _ _ _ _ _ E1 E2).
  simpl. intuition discriminate.
Defined.

(** ** iterate_pagerank: errors and bounds *)

(** X6: for a damping factor in [0,1), [iterate_pagerank] raises exactly
    on the empty corpus, where computing [1 / len(corpus)] divides by
    zero. *)
Theorem iterate_pagerank_raises_iff_empty (corpus : graph) (d : Q) :
  NoDup (dict_keys corpus) -> 0 <= d < 1 ->
  ((exists fuel e, iterate_pagerank fuel corpus d = Some (Raise e)) <->
   corpus = []) /\
  (corpus = [] ->
   forall fuel, iterate_pagerank fuel corpus d = Some (Raise ZeroDivisionError)).
Proof.
  intros Hnd Hd. split; [split|].
  - intros (fuel & e & He). destruct corpus as [|c corpus]; [reflexivity|].
    exfalso.
    destruct (iterate_pagerank_result (c :: corpus) d Hnd ltac:(discriminate) Hd)
      as (fuel' & _ & r & _ & Hr & _).
    apply (iterate_pagerank_more _ _ _ (Nat.max fuel fuel')) in He; [|lia].
    apply (iterate_pagerank_more _ _ _ (Nat.max fuel fuel')) in Hr; [|lia].
    congruence.
  - intros ->. exists O, ZeroDivisionError. reflexivity.
  - intros -> fuel. reflexivity.
Qed.

Lemma iterate_pagerank_raises_iff_empty_witness :
  ((exists fuel e, iterate_pagerank fuel [] (85 # 100) = Some (Raise e)) <->
   ([] : graph) = []) /\
  (([] : graph) = [] ->
   forall fuel, iterate_pagerank fuel [] (85 # 100) =
                Some (Raise ZeroDivisionError)).
Proof.
  apply (iterate_pagerank_raises_iff_empty [] (85 # 100)).
  - constructor.
  - split; [discriminate | reflexivity].
Defined.

Lemma Qsum_member (l : list Q) (v : Q) :
  (forall a, In a l -> 0 <= a) -> In v l -> v <= Qsum l.
Proof.
  induction l as [|a l IH]; intros Hpos Hin; [destruct Hin|].
  rewrite Qsum_cons.
  assert (0 <= Qsum l).
  { rewrite <- (map_id l). apply Qsum_map_nonneg.
    intros b Hb. apply Hpos. now right. }
  assert (0 <= a) by (apply Hpos; now left).
  destruct Hin as [->|Hin]; [lra|].
  assert (v <= Qsum l) by (apply IH; [intros; apply Hpos; now right | exact Hin]).
  lra.
Qed.

(** X8: for a corpus with distinct pages and a damping factor in [0,1),
    every rank that [iterate_pagerank] returns is above 0 and at most
    1. *)
Theorem iterate_pagerank_ranks_in_unit (corpus : graph) (d : Q) (fuel : nat)
  (r : dist) :
  NoDup (dict_keys corpus) -> 0 <= d < 1 ->
  iterate_pagerank fuel corpus d = Some (Ok r) ->
  dict_keys r = dict_keys corpus /\
  forall k v, In (k, v) r -> 0 < v <= 1.
Proof.
  intros Hnd Hd Hrun.
  assert (Hne : corpus <> []).
  { intros ->. discriminate Hrun. }
  destruct (iterate_pagerank_result corpus d Hnd Hne Hd)
    as (fuel' & _ & r' & _ & Hr & Hk & Hs & Hpos).
  assert (r' = r).
  { apply (iterate_pagerank_more _ _ _ (Nat.max fuel fuel')) in Hrun; [|lia].
    apply (iterate_pagerank_more _ _ _ (Nat.max fuel fuel')) in Hr; [|lia].
    congruence. }
  subst r'. split; [exact Hk|].
  intros k v Hin. split; [now apply (Hpos k)|].
  rewrite <- Hs, py_sum_Qsum. apply Qsum_member.
  - intros a Ha. unfold dict_values in Ha. apply in_map_iff in Ha.
    destruct Ha as ([k' v'] & <- & Hin'). apply Qlt_le_weak.
    now apply (Hpos k').
  - unfold dict_values. apply in_map_iff. exists (k, v). auto.
Qed.

Lemma iterate_pagerank_ranks_in_unit_witness :
  exists r,
    iterate_pagerank 4 chain (85 # 100) = Some (Ok r) /\
    dict_keys r = dict_keys chain /\
    forall k v, In (k, v) r -> 0 < v <= 1.
Proof.
  assert (E : iterate_pagerank 4 chain (85 # 100) = Some (Ok _))
    by (vm_compute; reflexivity).
  eexists. split; [exact E|].
  apply (iterate_pagerank_ranks_in_unit chain (85 # 100) 4 _).
  - apply distinct_NoDup. reflexivity.
  - split; [discriminate | reflexivity].
  - exact E.
Defined.

(** ** iterate_pagerank: stationary uniform ranks *)

Section Uniform.
Variable corpus : graph.
Variable d : Q.
Hypothesis corpus_keys : NoDup (dict_keys corpus).
Hypothesis stationary : d == 0 \/ balanced corpus.

Lemma newRank_uniform (x : dist) (p : Page) :
  uniform_ranks corpus x -> In p (dict_keys corpus) ->
  newRank corpus d x p == 1 / len corpus.
Proof.
  intros [Hk Hu] Hp.
  assert (Hne : corpus <> []) by (intros ->; destruct Hp).
  pose proof (len_pos corpus Hne) as HN.
  unfold newRank. destruct stationary as [Hd|Hb].
  - rewrite Hd. unfold Qdiv. lra.
  - assert (Hin : inflow corpus x p == 1 / len corpus).
    { unfold inflow.
      rewrite (Qsum_map_eq _ (fun e => (1 / len corpus) * share corpus (snd e) p)).
      - rewrite Qsum_map_scale, (Hb p Hp). lra.
      - intros e He. rewrite (Hu (fst e)); [lra|]. now apply in_map. }
    rewrite Hin. field. lra.
Qed.

Lemma uniform_turn (steps idx : nat) (cands : list Page) (x : dist) (p : Page) :
  uniform_ranks corpus x ->
  incl cands (dict_keys corpus) ->
  nth_error cands idx = Some p ->
  exists cands' x',
    for_candidates (S steps) corpus d idx cands x =
    for_candidates steps corpus d (S idx) cands' x' /\
    uniform_ranks corpus x' /\
    list_remove cands p = Ok cands'.
Proof.
  intros Hu Hincl Hnth. pose proof Hu as [Hkeys Hval].
  assert (Hp : In p cands) by (eapply nth_error_In; eauto).
  assert (Hpc : In p (dict_keys corpus)) by now apply Hincl.
  assert (Hpx : In p (dict_keys x)) by now rewrite Hkeys.
  assert (Hne : corpus <> []) by (intros ->; destruct Hpc).
  destruct (prob_total_inflow corpus corpus_keys x p) as (t & Ht & Et).
  { rewrite Hkeys. apply incl_refl. }
  destruct (dict_get_present x p Hpx) as [old Hold].
  set (v := (1 - d) / len corpus + d * t).
  assert (Hv : v == 1 / len corpus).
  { rewrite <- (newRank_uniform x p Hu Hpc). unfold v, newRank. now rewrite Et. }
  assert (Hold' : old == 1 / len corpus).
  { rewrite <- (rank_get _ _ _ Hold). now apply Hval. }
  destruct (list_remove_present cands p Hp) as [cands' Hrem].
  exists cands', (dict_set x p v).
  split; [|split; [split|exact Hrem]].
  - cbn [for_candidates]. rewrite Hnth, Ht. cbn [bind].
    rewrite py_div_len by exact Hne. cbn [bind]. rewrite Hold. cbn [bind].
    fold v.
    assert (E : Qltb (Qabs (v - old)) threshold = true).
    { apply Qltb_lt. setoid_replace (v - old) with 0 by (rewrite Hv, Hold'; lra).
      reflexivity. }
    rewrite E, Hrem. reflexivity.
  - now rewrite dict_set_keys.
  - intros k Hk. destruct (string_dec k p) as [->|Hkp].
    + now rewrite rank_set_same.
    + rewrite rank_set_other by exact Hkp. now apply Hval.
Qed.

Lemma uniform_for (steps : nat) :
  forall (idx : nat) (cands : list Page) (x : dist),
  uniform_ranks corpus x ->
  incl cands (dict_keys corpus) ->
  exists cands' x',
    for_candidates steps corpus d idx cands x = Ok (cands', x') /\
    uniform_ranks corpus x' /\
    incl cands' (dict_keys corpus) /\
    (List.length cands' <= List.length cands)%nat /\
    ((0 < steps)%nat -> (idx < List.length cands)%nat ->
     (List.length cands' < List.length cands)%nat).
Proof.
  induction steps as [|steps IH]; intros idx cands x Hu Hincl.
  - exists cands, x. split; [reflexivity|]. split; [exact Hu|].
    split; [exact Hincl|]. split; lia.
  - destruct (nth_error cands idx) as [p|] eqn:Hnth.
    + destruct (uniform_turn steps idx cands x p Hu Hincl Hnth)
        as (c1 & x1 & Heq & Hu1 & Hrem).
      apply list_remove_Ok in Hrem. destruct Hrem as (Hlen & Hsub & _).
      destruct (IH (S idx) c1 x1 Hu1) as (c2 & x2 & Hrun & Hu2 & Hi2 & Hl2 & _).
      { intros a Ha. apply Hincl, Hsub, Ha. }
      exists c2, x2. rewrite Heq. split; [exact Hrun|]. split; [exact Hu2|].
      split; [exact Hi2|]. split; lia.
    + exists cands, x. cbn [for_candidates]. rewrite Hnth.
      split; [reflexivity|]. split; [exact Hu|]. split; [exact Hincl|].
      split; [lia|]. intros _ Hlt. apply nth_error_None in Hnth. lia.
Qed.

Lemma uniform_while (fuel : nat) :
  forall (cands : list Page) (x : dist),
  uniform_ranks corpus x ->
  incl cands (dict_keys corpus) ->
  (List.length cands <= fuel)%nat ->
  exists r,
    while_candidates fuel corpus d cands x = Some (Ok r) /\
    uniform_ranks corpus r.
Proof.
  induction fuel as [|fuel IH]; intros cands x Hu Hincl Hlen.
  - destruct cands; [|simpl in Hlen; lia]. exists x. split; [reflexivity | exact Hu].
  - destruct cands as [|a cands]; [exists x; split; [reflexivity | exact Hu]|].
    destruct (uniform_for (List.length (a :: cands)) 0 (a :: cands) x Hu Hincl)
      as (c' & x' & Hrun & Hu' & Hi' & _ & Hl').
    cbn [while_candidates]. unfold pass. rewrite Hrun.
    apply IH; [exact Hu' | exact Hi' |].
    assert (List.length c' < List.length (a :: cands))%nat
      by (apply Hl'; simpl; lia).
    simpl in *. lia.
Qed.

Lemma uniform_sum (x : dist) :
  corpus <> [] -> uniform_ranks corpus x -> py_sum (dict_values x) == 1.
Proof.
  intros Hne [Hk Hu]. pose proof (len_pos corpus Hne) as HN.
  rewrite py_sum_Qsum, <- rank_values by (now rewrite Hk).
  rewrite Hk.
  rewrite (Qsum_map_eq _ (fun _ => 1 / len corpus)) by exact Hu.
  rewrite Qsum_const, len_keys. field. lra.
Qed.

Lemma iterate_pagerank_uniform_result :
  corpus <> [] ->
  exists r,
    iterate_pagerank (List.length corpus) corpus d = Some (Ok r) /\
    dict_keys r = dict_keys corpus /\
    forall k v, In (k, v) r -> v == 1 / len corpus.
Proof.
  intros Hne. pose proof (len_pos corpus Hne) as HN.
  set (x0 := map (fun k => (k, 1 / len corpus)) (dict_keys corpus)).
  assert (Hu0 : uniform_ranks corpus x0).
  { split; [apply dict_keys_map|]. intros k Hk. unfold x0.
    rewrite rank_constant by exact Hk. reflexivity. }
  destruct (uniform_while (List.length corpus) (dict_keys corpus) x0 Hu0
              (incl_refl _)) as (x & Hx & Hu).
  { unfold dict_keys. rewrite length_map. lia. }
  pose proof (uniform_sum x Hne Hu) as Hs. destruct Hu as [Hk Hu].
  assert (Hnd : NoDup (dict_keys x)) by now rewrite Hk.
  assert (Hdiv := divide_all_Ok x (py_sum (dict_values x)) Hnd
                    ltac:(rewrite Hs; discriminate)).
  eexists. split; [|split].
  - unfold iterate_pagerank. rewrite py_div_len by exact Hne.
    rewrite initial_probabilities by exact corpus_keys. fold x0.
    rewrite Hx, Hdiv. reflexivity.
  - now rewrite divide_all_keys.
  - intros k v Hin. apply in_map_iff in Hin.
    destruct Hin as ([k' v'] & [= <- <-] & Hin). cbn [snd].
    rewrite Hs, <- (rank_get x k' v') by now apply dict_get_entry.
    rewrite Hu; [field; lra|]. rewrite <- Hk. now apply (in_map fst) in Hin.
Qed.
End Uniform.

(** X9: for a damping factor in [0,1], on a corpus where every page
    receives shares that add up to 1, and on every corpus when the
    damping factor is 0, [iterate_pagerank] ends within as many passes
    as there are pages and gives every page the rank [1/N]. *)
Theorem iterate_pagerank_uniform (corpus : graph) (d : Q) :
  NoDup (dict_keys corpus) -> corpus <> [] ->
  0 <= d <= 1 ->
  d == 0 \/ balanced corpus ->
  exists r,
    iterate_pagerank (List.length corpus) corpus d = Some (Ok r) /\
    dict_keys r = dict_keys corpus /\
    forall k v, In (k, v) r -> v == 1 / len corpus.
Proof.
  intros Hnd Hne _ Hst.
  apply (iterate_pagerank_uniform_result corpus d Hnd Hst Hne).
Qed.

Lemma cycle3_balanced : balanced cycle3.
Proof.
  intros p [<-|[<-|[<-|[]]]]; reflexivity.
Qed.

Lemma iterate_pagerank_uniform_witness :
  exists r,
    iterate_pagerank 3 cycle3 (85 # 100) = Some (Ok r) /\
    dict_keys r = dict_keys cycle3 /\
    forall k v, In (k, v) r -> v == 1 / len cycle3.
Proof.
  apply (iterate_pagerank_uniform cycle3 (85 # 100)).
  - apply distinct_NoDup. reflexivity.
  - discriminate.
  - split; discriminate.
  - right. exact cycle3_balanced.
Defined.

Lemma single_page_links (p : Page) (links : list Page) :
  valid_graph [(p, links)] -> links = [].
Proof.
  intros (_ & Hcl & Hself).
  inversion Hcl as [|? ? Hincl _]; subst. inversion Hself as [|? ? Hp _]; subst.
  cbn [fst snd dict_keys map] in *.
  destruct links as [|l links]; [reflexivity|].
  exfalso. apply Hp. destruct (Hincl l) as [<-|[]]; now left.
Qed.

Lemma single_entry (p : Page) (r : dist) :
  dict_keys r = [p] -> py_sum (dict_values r) == 1 ->
  exists v, r = [(p, v)] /\ v == 1.
Proof.
  intros Hk Hs. destruct r as [|[k v] [|e r]]; try discriminate.
  injection Hk as ->. exists v. split; [reflexivity|].
  unfold py_sum in Hs. simpl in Hs. lra.
Qed.

(** X5: on a corpus of a single page, which then links nowhere, both
    estimators give that page the rank 1, for every damping factor in
    [0,1]: [sample_pagerank] for every positive number of samples and
    every sequence of draws, and [iterate_pagerank] after one pass. *)
Theorem single_page_rank (gen : random_source) (p : Page)
  (links : list Page) (d : Q) (n : Z) :
  valid_graph [(p, links)] -> 0 <= d <= 1 -> (0 < n)%Z ->
  (exists v, sample_pagerank gen [(p, links)] d n = Ok [(p, v)] /\ v == 1) /\
  (exists v, iterate_pagerank 1 [(p, links)] d = Some (Ok [(p, v)]) /\ v == 1).
Proof.
  intros Hv _ Hn. pose proof (single_page_links p links Hv) as ->.
  destruct Hv as (Hwf & Hcl & _). split.
  - destruct (sample_pagerank_result gen [(p, [])] d Hwf Hcl
                ltac:(discriminate) n Hn) as (_ & r & Hr & Hk & Hs).
    destruct (single_entry p r Hk Hs) as (v & -> & Hv).
    exists v. split; assumption.
  - destruct (iterate_pagerank_uniform_result [(p, [])] d (proj1 Hwf))
      as (r & Hr & Hk & Hu).
    + right. intros q [<-|[]]. reflexivity.
    + discriminate.
    + destruct r as [|[k v] [|e r]]; try discriminate.
      injection Hk as ->. exists v. split; [exact Hr|].
      rewrite (Hu p v) by now left. reflexivity.
Qed.

Lemma single_page_rank_witness :
  (exists v, sample_pagerank (fun _ => 7%N) [("index.html", [])] (85 # 100) 5
             = Ok [("index.html", v)] /\ v == 1) /\
  (exists v, iterate_pagerank 1 [("index.html", [])] (85 # 100)
             = Some (Ok [("index.html", v)]) /\ v == 1).
Proof.
  apply (single_page_rank (fun _ => 7%N) "index.html" [] (85 # 100) 5).
  - apply valid_graphb_valid. reflexivity.
  - split; discriminate.
  - reflexivity.
Defined.

(** X4: the pipeline of [main]: on a corpus that [crawl] returns and
    that holds a page, [sample_pagerank] with a positive number of
    samples returns one rank for each page, and every result that
    [iterate_pagerank] returns holds one rank for each page; in both the
    ranks add up to 1. *)
Theorem crawl_then_rank (findall : string -> list Page)
  (directory : answer (list (string * answer string))) (corpus : graph) :
  crawl findall directory = Pages corpus -> corpus <> [] ->
  (forall gen d n, (0 < n)%Z ->
     exists r, sample_pagerank gen corpus d n = Ok r /\
               dict_keys r = dict_keys corpus /\
               py_sum (dict_values r) == 1) /\
  (forall fuel d r, iterate_pagerank fuel corpus d = Some (Ok r) ->
     dict_keys r = dict_keys corpus /\ py_sum (dict_values r) == 1).
Proof.
  intros Hg Hne.
  pose proof (crawl_valid_graph findall directory corpus Hg) as (Hwf & Hcl & _).
  split.
  - intros gen d n Hn.
    destruct (sample_pagerank_result gen corpus d Hwf Hcl Hne n Hn)
      as (_ & r & Hr & Hkr & Hs).
    exists r. auto.
  - intros fuel d r Hr.
    apply (iterate_pagerank_returned corpus d fuel r (proj1 Hwf) Hr).
Qed.

Lemma crawl_then_rank_witness :
  (forall gen d n, (0 < n)%Z ->
     exists r,
       sample_pagerank gen [("1.html", ["2.html"]); ("2.html", ["1.html"])] d n
       = Ok r /\
       dict_keys r = ["1.html"; "2.html"] /\
       py_sum (dict_values r) == 1) /\
  exists r,
    iterate_pagerank 2 [("1.html", ["2.html"]); ("2.html", ["1.html"])]
      (85 # 100) = Some (Ok r) /\
    dict_keys r = ["1.html"; "2.html"] /\ py_sum (dict_values r) == 1.
Proof.
  destruct (crawl_then_rank site_findall (Answer site) _ crawl_site)
    as [Hs Hi]; [discriminate|].
  split; [exact Hs|].
  assert (E : iterate_pagerank 2
                [("1.html", ["2.html"]); ("2.html", ["1.html"])] (85 # 100)
              = Some (Ok _)) by (vm_compute; reflexivity).
  eexists. split; [exact E | exact (Hi _ _ _ E)].
Defined.

(** ** sample_pagerank: bounds *)

Lemma rank_map (x : dist) (h : Page -> Q -> Q) (k : Page) :
  NoDup (dict_keys x) -> In k (dict_keys x) ->
  rank (map (fun e => (fst e, h (fst e) (snd e))) x) k = h k (rank x k).
Proof.
  intros Hnd Hk. destruct (dict_get_present x k Hk) as [v Hv].
  rewrite (rank_get x k v Hv). apply rank_get, dict_get_entry.
  - unfold dict_keys. rewrite map_map. exact Hnd.
  - apply dict_get_In in Hv. apply in_map_iff. exists (k, v). auto.
Qed.

Lemma rank_build (f : Page -> Q) (keys : list Page) (k : Page) :
  In k keys -> rank (map (fun k => (k, f k)) keys) k = f k.
Proof.
  intros H. unfold rank.
  induction keys as [|a keys IH]; [destruct H|].
  simpl. destruct (String.eqb_spec k a) as [->|Hne]; [reflexivity|].
  apply IH. destruct H; congruence.
Qed.

Section SamplingBounds.
Variable gen : random_source.
Variable corpus : graph.
Variable d : Q.
Variables lo hi : Q.
Hypothesis corpus_wf : well_formed corpus.
Hypothesis corpus_closed : closed corpus.
Hypothesis corpus_nonempty : corpus <> [].
Hypothesis transition_bounds :
  forall page links k,
    dict_get corpus page = Ok links -> In k (dict_keys corpus) ->
    lo <= spec_transition corpus links d k <= hi.

Lemma sample_loop_bounds (count : nat) :
  forall i acc tracked,
  accumulator_ok corpus i acc -> draw gen i acc = Ok tracked ->
  In tracked (dict_keys corpus) ->
  exists acc',
    sample_loop gen corpus d count i acc = Ok acc' /\
    accumulator_ok corpus (i + count) acc' /\
    forall k, In k (dict_keys corpus) ->
      rank acc k + Q_of_nat count * lo <= rank acc' k /\
      rank acc' k <= rank acc k + Q_of_nat count * hi.
Proof.
  induction count as [|count IH]; intros i acc tracked Hok Hdraw Htracked.
  - exists acc. split; [reflexivity|]. split; [now rewrite Nat.add_0_r|].
    intros k _. change (Q_of_nat 0) with 0. lra.
  - cbn [sample_loop]. fold (draw gen i acc). rewrite Hdraw. cbn [bind].
    destruct (dict_get_present _ _ Htracked) as [links Hlinks].
    pose proof (transition_model_eq corpus tracked d links
                  (proj1 corpus_wf) Hlinks) as Ht.
    set (t := map (fun pg => (pg, spec_transition corpus links d pg))
                (dict_keys corpus)) in Ht.
    destruct (transition_model_step corpus d corpus_wf corpus_closed
                corpus_nonempty tracked Htracked) as (t' & Ht' & Hkt & Hst).
    assert (t' = t) by congruence. subst t'.
    rewrite Ht. cbn [bind]. destruct Hok as [Hkeys Hsum].
    assert (Hnd : NoDup (dict_keys acc)) by (rewrite Hkeys; apply corpus_wf).
    rewrite add_all_Ok by congruence. cbn [bind].
    assert (Hok' : accumulator_ok corpus (S i) (spec_add acc t)).
    { split; [now rewrite spec_add_keys|].
      rewrite spec_add_sum, Hsum, Hst, Q_of_nat_succ by congruence.
      reflexivity. }
    destruct (draw_Ok gen corpus corpus_wf corpus_closed corpus_nonempty (S i) _ Hok')
      as (next & Hnext & Hin).
    destruct (IH (S i) _ next Hok' Hnext Hin) as (acc' & Hrun & Hacc' & Hb).
    exists acc'. split; [exact Hrun|].
    split; [now rewrite <- Nat.add_succ_comm|].
    intros k Hk. destruct (Hb k Hk) as [Hlo Hhi].
    assert (E : rank (spec_add acc t) k = rank acc k + rank t k).
    { unfold spec_add.
      apply (rank_map acc (fun k v => v + rank t k) k Hnd).
      now rewrite Hkeys. }
    rewrite E in Hlo, Hhi. unfold t in Hlo, Hhi.
    rewrite rank_build in Hlo, Hhi by exact Hk.
    destruct (transition_bounds tracked links k Hlinks Hk).
    rewrite Q_of_nat_succ. split; lra.
Qed.

Lemma sample_pagerank_bounds (n : Z) :
  (0 < n)%Z ->
  exists r,
    sample_pagerank gen corpus d n = Ok r /\
    dict_keys r = dict_keys corpus /\
    forall k v, In (k, v) r -> lo <= v <= hi.
Proof.
  intros Hn. unfold sample_pagerank.
  rewrite initial_probabilities by apply corpus_wf.
  fold (spec_accumulator corpus).
  assert (Hok : accumulator_ok corpus 0 (spec_accumulator corpus)).
  { split; [apply dict_keys_map|].
    unfold spec_accumulator. rewrite dict_values_map, Qsum_const.
    change (Q_of_nat 0) with 0. lra. }
  destruct (draw_Ok gen corpus corpus_wf corpus_closed corpus_nonempty 0 _ Hok) as (first & Hfirst & Hin).
  destruct (sample_loop_bounds (Z.to_nat n) 0 _ first Hok Hfirst Hin)
    as (acc & Hrun & (Hkeys & Hsum) & Hb).
  rewrite Hrun. cbn [bind].
  assert (Hnd : NoDup (dict_keys acc)) by (rewrite Hkeys; apply corpus_wf).
  assert (HnQ : 0 < inject_Z n).
  { change 0 with (inject_Z 0). now rewrite <- Zlt_Qlt. }
  rewrite divide_all_Ok by (auto; lra). cbn [bind].
  fold (spec_scale acc (inject_Z n)).
  assert (Hnd' : NoDup (dict_keys (spec_scale acc (inject_Z n))))
    by now rewrite spec_scale_keys.
  assert (Hcount : Q_of_nat (Z.to_nat n) == inject_Z n).
  { unfold Q_of_nat. rewrite Z2Nat.id by lia. reflexivity. }
  assert (Htot : py_sum (dict_values (spec_scale acc (inject_Z n))) == 1).
  { rewrite py_sum_Qsum. unfold spec_scale.
    rewrite divide_all_sum by lra. rewrite Hsum, Nat.add_0_l, Hcount.
    field. lra. }
  rewrite divide_all_Ok by (auto; rewrite Htot; discriminate).
  eexists. split; [reflexivity|].
  split; [now rewrite divide_all_keys, spec_scale_keys|].
  intros k v Hv. apply in_map_iff in Hv.
  destruct Hv as ([k1 v1] & [= <- <-] & Hv1). cbn [snd].
  unfold spec_scale in Hv1. apply in_map_iff in Hv1.
  destruct Hv1 as ([k0 v0] & [= <- <-] & Hv0). cbn [snd].
  assert (Hk0 : In k0 (dict_keys corpus)).
  { rewrite <- Hkeys. now apply (in_map fst) in Hv0. }
  destruct (Hb k0 Hk0) as [Hlo Hhi].
  rewrite (rank_get acc k0 v0) in Hlo, Hhi by now apply dict_get_entry.
  assert (Hz : rank (spec_accumulator corpus) k0 = 0)
    by (unfold spec_accumulator; now rewrite rank_constant).
  rewrite Hz, Hcount in Hlo, Hhi. rewrite Htot.
  assert (E : v0 / inject_Z n / 1 == v0 / inject_Z n) by (field; lra).
  rewrite E. split.
  - apply Qle_shift_div_l; [exact HnQ | lra].
  - apply Qle_shift_div_r; [exact HnQ | lra].
Qed.
End SamplingBounds.

Lemma len_ge_1 {A : Type} (l : list A) : l <> [] -> 1 <= len l.
Proof.
  destruct l as [|a l]; [congruence|]. intros _. unfold len.
  cbn [List.length]. rewrite Q_of_nat_succ.
  pose proof (Q_of_nat_nonneg (List.length l)). lra.
Qed.

Lemma Qdiv_le_self (a b : Q) : 0 <= a -> 1 <= b -> a / b <= a.
Proof.
  intros Ha Hb. apply Qle_shift_div_r; [lra|].
  assert (0 <= a * (b - 1)) by (apply Qmult_le_0_compat; lra). lra.
Qed.

Lemma spec_transition_range (corpus : graph) (links : list Page) (d : Q)
  (p : Page) :
  corpus <> [] -> 0 <= d <= 1 ->
  (1 - d) / len corpus <= spec_transition corpus links d p <= 1.
Proof.
  intros Hne Hd. pose proof (len_ge_1 corpus Hne) as HN.
  pose proof (Qdiv_le_self (1 - d) (len corpus) ltac:(lra) HN).
  pose proof (Qdiv_le_self 1 (len corpus) ltac:(lra) HN).
  assert ((1 - d) / len corpus <= 1 / len corpus).
  { unfold Qdiv. apply Qmult_le_compat_r; [lra|].
    apply Qinv_le_0_compat. lra. }
  unfold spec_transition. destruct links as [|l links]; cbn [is_empty].
  - lra.
  - pose proof (len_ge_1 (l :: links) ltac:(discriminate)) as HL.
    pose proof (Qdiv_le_self d (len (l :: links)) ltac:(lra) HL).
    assert (0 <= d / len (l :: links))
      by (apply Qle_shift_div_l; lra).
    destruct (set_mem p (l :: links)); lra.
Qed.

(** X7: for a valid, non-empty corpus, a damping factor in [0,1] and a
    positive number of samples, every rank that [sample_pagerank] returns
    lies between [(1 - d)/N] and 1, whatever pages were drawn. *)
Theorem sample_pagerank_ranks_in_unit (gen : random_source) (corpus : graph)
  (d : Q) (n : Z) :
  valid_graph corpus -> corpus <> [] -> 0 <= d <= 1 -> (0 < n)%Z ->
  exists r,
    sample_pagerank gen corpus d n = Ok r /\
    dict_keys r = dict_keys corpus /\
    forall k v, In (k, v) r -> (1 - d) / len corpus <= v <= 1.
Proof.
  intros (Hwf & Hcl & _) Hne Hd Hn.
  apply (sample_pagerank_bounds gen corpus d ((1 - d) / len corpus) 1
           Hwf Hcl Hne); [|exact Hn].
  intros page links k _ _. now apply spec_transition_range.
Qed.

Lemma sample_pagerank_ranks_in_unit_witness :
  exists r,
    sample_pagerank (fun i => N.of_nat (3 * i)) chain (85 # 100) 4 = Ok r /\
    dict_keys r = dict_keys chain /\
    forall k v, In (k, v) r -> (1 - (85 # 100)) / len chain <= v <= 1.
Proof.
  apply (sample_pagerank_ranks_in_unit (fun i => N.of_nat (3 * i)) chain
           (85 # 100) 4).
  - apply valid_graphb_valid. reflexivity.
  - discriminate.
  - split; discriminate.
  - reflexivity.
Defined.

(** X10: when the damping factor is 0, or when no page of the corpus
    links anywhere, [sample_pagerank] gives every page the rank [1/N],
    whatever pages were drawn. *)
Theorem sample_pagerank_uniform (gen : random_source) (corpus : graph)
  (d : Q) (n : Z) :
  valid_graph corpus -> corpus <> [] ->
  d == 0 \/ Forall (fun e => snd e = []) corpus ->
  (0 < n)%Z ->
  exists r,
    sample_pagerank gen corpus d n = Ok r /\
    dict_keys r = dict_keys corpus /\
    forall k v, In (k, v) r -> v == 1 / len corpus.
Proof.
  intros (Hwf & Hcl & _) Hne Hu Hn.
  destruct (sample_pagerank_bounds gen corpus d (1 / len corpus)
              (1 / len corpus) Hwf Hcl Hne) with (n := n)
    as (r & Hr & Hk & Hb); [|exact Hn|].
  - intros page links k Hget _.
    enough (spec_transition corpus links d k == 1 / len corpus) by lra.
    pose proof (len_pos corpus Hne) as HN.
    unfold spec_transition. destruct Hu as [Hd|Hall].
    + destruct links as [|l links]; cbn [is_empty]; [reflexivity|].
      assert (0 < len (l :: links)) by (apply len_pos; discriminate).
      destruct (set_mem k (l :: links)); rewrite Hd; field; lra.
    + apply dict_get_In in Hget. rewrite Forall_forall in Hall.
      specialize (Hall _ Hget). cbn [snd] in Hall. subst links. reflexivity.
  - exists r. split; [exact Hr|]. split; [exact Hk|].
    intros k v Hin. destruct (Hb k v Hin). now apply Qle_antisym.
Qed.

Lemma sample_pagerank_uniform_witness :
  exists r,
    sample_pagerank (fun i => N.of_nat i) dead_end 0 3 = Ok r /\
    dict_keys r = dict_keys dead_end /\
    forall k v, In (k, v) r -> v == 1 / len dead_end.
Proof.
  apply (sample_pagerank_uniform (fun i => N.of_nat i) dead_end 0 3).
  - apply valid_graphb_valid. reflexivity.
  - discriminate.
  - left. reflexivity.
  - reflexivity.
Defined.

(** ** transition_model: links that leave the corpus *)

Lemma count_common (links keys : list Page) :
  NoDup keys -> NoDup links ->
  List.length (filter (fun p => set_mem p links) keys) =
  List.length (filter (fun l => set_mem l keys) links).
Proof.
  intros Hk Hl. apply Permutation_length, NoDup_Permutation.
  - now apply NoDup_filter.
  - now apply NoDup_filter.
  - intros x. rewrite !filter_In, !set_mem_In. tauto.
Qed.

(** X11: the probabilities that [transition_model] returns for a page
    with links add up to [(1 - d) + d * m / L], where [m] counts the
    links of the page that are pages of the corpus: each link that
    leaves the corpus loses [d / L]; for a page without links they add
    up to 1. *)
Theorem transition_model_mass (corpus : graph) (page : Page) (d : Q)
  (links : list Page) :
  NoDup (dict_keys corpus) -> NoDup links ->
  dict_get corpus page = Ok links ->
  exists r,
    transition_model corpus page d = Ok r /\
    (links = [] -> py_sum (dict_values r) == 1) /\
    (links <> [] ->
     py_sum (dict_values r) ==
     (1 - d) +
     d * len (filter (fun l => set_mem l (dict_keys corpus)) links) / len links).
Proof.
  intros Hnd Hl Hget.
  assert (Hne : corpus <> []) by (destruct corpus; [discriminate | congruence]).
  pose proof (len_pos corpus Hne) as HN.
  eexists. split; [apply (transition_model_eq _ _ _ _ Hnd Hget)|].
  rewrite py_sum_Qsum, dict_values_map. unfold spec_transition. split.
  - intros ->. cbn [is_empty]. rewrite Qsum_const, len_keys. field. lra.
  - intros Hlinks. destruct links as [|l links]; [congruence|].
    cbn [is_empty]. rewrite Qsum_two_valued, len_keys.
    assert (E : len (filter (fun p => set_mem p (l :: links)) (dict_keys corpus))
                = len (filter (fun x => set_mem x (dict_keys corpus)) (l :: links)))
      by (unfold len; now rewrite count_common).
    rewrite E.
    assert (0 < len (l :: links)) by (apply len_pos; discriminate).
    field. split; lra.
Qed.

Lemma transition_model_mass_witness :
  exists r,
    transition_model [("A", ["B"; "X"]); ("B", [])] "A" (1 # 2) = Ok r /\
    (["B"; "X"] = [] -> py_sum (dict_values r) == 1) /\
    (["B"; "X"] <> [] ->
     py_sum (dict_values r) ==
     (1 - (1 # 2)) +
     (1 # 2) * len (filter (fun l => set_mem l ["A"; "B"]) ["B"; "X"]) /
     len ["B"; "X"]).
Proof.
  apply (transition_model_mass [("A", ["B"; "X"]); ("B", [])] "A" (1 # 2)
           ["B"; "X"]).
  - apply distinct_NoDup. reflexivity.
  - apply distinct_NoDup. reflexivity.
  - reflexivity.
Defined.

(** ** The order of the members of a set *)

Lemma for_each_ext {A S : Type} (body body' : S -> A -> outcome S)
  (l : list A) :
  (forall s a, In a l -> body s a = body' s a) ->
  forall s, for_each l body s = for_each l body' s.
Proof.
  induction l as [|a l IH]; intros H s; [reflexivity|].
  cbn [for_each]. rewrite H by now left.
  destruct (body' s a) as [s'|e]; [|reflexivity]. cbn [bind].
  apply IH. intros; apply H; now right.
Qed.

Lemma set_mem_perm (p : Page) (l l' : list Page) :
  Permutation l l' -> set_mem p l = set_mem p l'.
Proof.
  intros H. apply eq_true_iff_eq. rewrite !set_mem_In.
  split; apply Permutation_in; [exact H | now apply Permutation_sym].
Qed.

Lemma len_perm {A : Type} (l l' : list A) : Permutation l l' -> len l = len l'.
Proof.
  intros H. unfold len. now rewrite (Permutation_length H).
Qed.

Lemma is_empty_perm {A : Type} (l l' : list A) :
  Permutation l l' -> is_empty l = is_empty l'.
Proof.
  intros H. destruct l, l'; try reflexivity.
  - now apply Permutation_nil in H.
  - apply Permutation_sym in H. now apply Permutation_nil in H.
Qed.

Lemma same_links_keys (corpus corpus' : graph) :
  same_links corpus corpus' -> dict_keys corpus = dict_keys corpus'.
Proof.
  intros same. induction same as [|e e' c c' [Hk _] _ IH]; simpl;
    [reflexivity|].
  now rewrite Hk, IH.
Qed.

Lemma same_links_len (corpus corpus' : graph) :
  same_links corpus corpus' -> len corpus = len corpus'.
Proof.
  intros same. unfold len. now rewrite (Forall2_length same).
Qed.

Lemma same_links_get (corpus corpus' : graph) (k : Page) :
  same_links corpus corpus' ->
  match dict_get corpus k, dict_get corpus' k with
  | Ok l, Ok l' => Permutation l l'
  | Raise e, Raise e' => e = e'
  | _, _ => False
  end.
Proof.
  intros same.
  induction same as [|[k1 l1] [k2 l2] c c' [Hk Hp] _ IH]; simpl;
    [reflexivity|].
  cbn [fst snd] in Hk, Hp. subst k2.
  destruct (String.eqb k k1); [exact Hp | exact IH].
Qed.

Section SameLinks.
Variables corpus corpus' : graph.
Hypothesis same : same_links corpus corpus'.

Lemma same_links_transition_model (page : Page) (d : Q) :
  transition_model corpus page d = transition_model corpus' page d.
Proof.
  unfold transition_model.
  pose proof (same_links_get corpus corpus' page same) as Hg.
  destruct (dict_get corpus page) as [l|e], (dict_get corpus' page) as [l'|e'];
    try contradiction; [|now subst].
  cbn [bind]. rewrite <- (same_links_keys corpus corpus' same),
    <- (same_links_len corpus corpus' same).
  rewrite (Permutation_length Hg). destruct (List.length l' =? 0)%nat.
  - reflexivity.
  - apply for_each_ext. intros s a _.
    now rewrite (set_mem_perm a l l' Hg), (len_perm l l' Hg).
Qed.

Lemma same_links_prob_total (x : dist) (page : Page) :
  prob_total corpus x page = prob_total corpus' x page.
Proof.
  unfold prob_total. rewrite <- (same_links_keys corpus corpus' same),
    <- (same_links_len corpus corpus' same).
  apply for_each_ext. intros s extra _.
  pose proof (same_links_get corpus corpus' extra same) as Hg.
  destruct (dict_get corpus extra) as [l|e], (dict_get corpus' extra) as [l'|e'];
    try contradiction; [|now subst].
  cbn [bind].
  now rewrite (is_empty_perm l l' Hg), (set_mem_perm page l l' Hg),
    (len_perm l l' Hg).
Qed.

Lemma same_links_for_candidates (d : Q) (steps : nat) :
  forall idx cands x,
  for_candidates steps corpus d idx cands x =
  for_candidates steps corpus' d idx cands x.
Proof.
  induction steps as [|steps IH]; intros idx cands x; [reflexivity|].
  cbn [for_candidates]. destruct (nth_error cands idx) as [p|]; [|reflexivity].
  rewrite same_links_prob_total, <- (same_links_len corpus corpus' same).
  destruct (prob_total corpus' x p) as [t|e]; [|reflexivity]. cbn [bind].
  destruct (py_div (1 - d) (len corpus)) as [b|e]; [|reflexivity]. cbn [bind].
  destruct (dict_get x p) as [old|e]; [|reflexivity]. cbn [bind].
  destruct (if Qltb (Qabs (b + d * t - old)) threshold
            then list_remove cands p else Ok cands) as [c|e]; [|reflexivity].
  cbn [bind]. apply IH.
Qed.

Lemma same_links_while (d : Q) (fuel : nat) :
  forall cands x,
  while_candidates fuel corpus d cands x =
  while_candidates fuel corpus' d cands x.
Proof.
  induction fuel as [|fuel IH]; intros cands x; [reflexivity|].
  destruct cands as [|a cands]; [reflexivity|].
  cbn [while_candidates]. unfold pass. rewrite same_links_for_candidates.
  destruct (for_candidates _ corpus' d 0 (a :: cands) x) as [[c' x']|e];
    [apply IH | reflexivity].
Qed.

Lemma same_links_sample_loop (gen : random_source) (d : Q) (count : nat) :
  forall i acc,
  sample_loop gen corpus d count i acc = sample_loop gen corpus' d count i acc.
Proof.
  induction count as [|count IH]; intros i acc; [reflexivity|].
  cbn [sample_loop].
  destruct (if (i =? 0)%nat then _ else _) as [p|e]; [|reflexivity].
  cbn [bind]. rewrite same_links_transition_model.
  destruct (transition_model corpus' p d) as [t|e]; [|reflexivity].
  cbn [bind]. destruct (add_all acc t) as [acc'|e]; [|reflexivity].
  cbn [bind]. apply IH.
Qed.
End SameLinks.

(** X14: the three functions ask a set of links only for membership and
    for its size: on two corpora that list the same pages in the same
    order and give each page the same links, in whatever order, they
    return the same results. *)
Theorem link_order_irrelevant (corpus corpus' : graph) :
  same_links corpus corpus' ->
  (forall page d,
     transition_model corpus page d = transition_model corpus' page d) /\
  (forall gen d n,
     sample_pagerank gen corpus d n = sample_pagerank gen corpus' d n) /\
  (forall fuel d,
     iterate_pagerank fuel corpus d = iterate_pagerank fuel corpus' d).
Proof.
  intros Hs. split; [|split].
  - intros page d. now apply same_links_transition_model.
  - intros gen d n. unfold sample_pagerank.
    rewrite <- (same_links_keys corpus corpus' Hs).
    now rewrite (same_links_sample_loop corpus corpus' Hs).
  - intros fuel d. unfold iterate_pagerank.
    rewrite <- (same_links_keys corpus corpus' Hs),
      <- (same_links_len corpus corpus' Hs).
    destruct (py_div 1 (len corpus)) as [c|e]; [|reflexivity].
    now rewrite (same_links_while corpus corpus' Hs).
Qed.

Lemma link_order_irrelevant_witness :
  transition_model [("A", ["B"; "C"]); ("B", []); ("C", ["A"])] "A" (85 # 100) =
  transition_model [("A", ["C"; "B"]); ("B", []); ("C", ["A"])] "A" (85 # 100).
Proof.
  apply (link_order_irrelevant
           [("A", ["B"; "C"]); ("B", []); ("C", ["A"])]
           [("A", ["C"; "B"]); ("B", []); ("C", ["A"])]).
  repeat constructor.
Defined.

Close Scope string_scope.
